(** * theStranger: the glyph store and resolution engine of [firebase-storage.js]

    A shallow embedding of [src/firebase-storage.js] (with the [db] handle of
    [firebase-config.js]) and the properties of its specification.

    Modelling conventions.
    - JavaScript arguments whose type the code tests at run time
      ([typeof], [Array.isArray], truthiness) are values of [JS.value];
      numbers are integers, the code looks at their type and truthiness only.
    - Plain JavaScript objects used as dictionaries ([letteringImages],
      [charMap], [letterings]) are finite maps on their own properties
      ([gmap string _]); the names of the properties of [Object.prototype]
      are not used as characters.
    - [localStorage] is a finite map from keys to strings together with a flag
      saying whether the device accepts writes ([setItem] raises when it does
      not, the case the code itself catches in [saveLettering]).
    - The Firestore database is a pair of collections.  [addDoc], [setDoc],
      [getDoc] and [getDocs] are modelled after the Firestore client: each may
      fail (the [*_error] oracles of [Env]); [setDoc] with [{merge: true}]
      takes every key of the data object as ONE field name (only [updateDoc]
      splits keys at dots).
    - Whatever the code asks of its environment ([Date.now()],
      [Math.random()], the identifier chosen by [addDoc], the order in which
      concurrent lookups complete) is an oracle in [Env]; an exception is a
      [Throw] result and state is passed explicitly. *)

From Stdlib Require Import QArith Qround.
From stdpp Require Import base option list strings gmap fin_maps pretty sorting.

Local Open Scope string_scope.
Local Open Scope Z_scope.
Local Open Scope nat_scope.

#[local] Set Warnings "-clear-no-such-hyp".

(* ===================================================================== *)
(** ** JavaScript values and string primitives *)
(* ===================================================================== *)

Module JS.

#[warnings="-register-all"]
Inductive value : Type :=
| Undefined
| Null
| Bool (b : bool)
| Num (z : Z)
| Str (s : string)
| Arr (l : list value)
| Obj.

(** [!!v] *)
Definition truthy (v : value) : bool :=
  match v with
  | Undefined | Null => false
  | Bool b => b
  | Num z => negb (Z.eqb z 0)
  | Str s => negb (String.eqb s "")
  | Arr _ | Obj => true
  end.

(** [typeof v === 'string'] *)
Definition is_string (v : value) : bool :=
  match v with Str _ => true | _ => false end.

(** [Array.isArray(v)] *)
Definition isArray (v : value) : bool :=
  match v with Arr _ => true | _ => false end.

(** [v.length] of a string ([0] stands in for values that are no strings;
    the code reads it only behind a [typeof] test). *)
Definition length (v : value) : nat :=
  match v with Str s => String.length s | _ => 0 end.

(** The string held by a value that passed the [typeof] test. *)
Definition to_string (v : value) : string :=
  match v with Str s => s | _ => "" end.

(** [s.startsWith(p)] *)
Definition startsWith (s p : string) : bool := String.prefix p s.

(** [!!s] for a string *)
Definition nonempty (s : string) : bool := negb (String.eqb s "").

(** [s.substr(from)] *)
Fixpoint drop (n : nat) (s : string) : string :=
  match n, s with
  | O, _ => s
  | S _, EmptyString => EmptyString
  | S n', String _ s' => drop n' s'
  end.

(** [s.replace(pat, '')]: the first occurrence of [pat] in [s] is removed,
    [s] is returned as it is when [pat] does not occur. *)
Fixpoint replace (s pat : string) : string :=
  if String.prefix pat s then drop (String.length pat) s
  else match s with
       | EmptyString => EmptyString
       | String a s' => String a (replace s' pat)
       end.

(** [s.substr(from, len)] *)
Definition substr (from len : nat) (s : string) : string :=
  String.substring from len s.

End JS.

(* ===================================================================== *)
(** ** Results and errors *)
(* ===================================================================== *)

(** The exceptions the module raises or lets through. *)
Inductive error : Type :=
| InvalidCharacter        (* Error('Invalid character: must be a non-empty string') *)
| InvalidImageData        (* Error('Invalid imageData: must be a data URL string') *)
| LocalStorageNotAvailable (* Error('Failed to save: localStorage not available') *)
| PermissionDenied        (* Error('Permission denied: ...') *)
| FirestoreUnavailable    (* Error('Firestore unavailable: ...') *)
| Rethrown (code : string) (* [throw error] of the remote path *)
| QuotaExceeded.          (* the exception of [localStorage.setItem], uncaught *)

Inductive result (A : Type) : Type :=
| Ok (a : A)
| Throw (e : error).
Arguments Ok {A} a.
Arguments Throw {A} e.

(** The spec's [InvalidInput]: either validation error of [saveLettering]. *)
Definition InvalidInput (e : error) : Prop :=
  e = InvalidCharacter ∨ e = InvalidImageData.

(* ===================================================================== *)
(** ** Local storage *)
(* ===================================================================== *)

Module LocalStorage.

Record t : Type := mk {
  items : gmap string string;
  (** [false]: [setItem] raises (quota exceeded or storage disabled) *)
  writable : bool
}.

Definition getItem (key : string) (st : t) : option string := items st !! key.

Definition setItem (key val : string) (st : t) : option t :=
  if writable st then Some (mk (<[key := val]> (items st)) (writable st))
  else None.

(** The pairs visited by [for (i = 0; i < localStorage.length; i++)] with
    [localStorage.key(i)] and [localStorage.getItem(key)]. *)
Definition entries (st : t) : list (string * string) := map_to_list (items st).

End LocalStorage.

(* ===================================================================== *)
(** ** The Firestore database *)
(* ===================================================================== *)

Module Glyph.
(** A document of the collection [globalGlyphs]. *)
Record t : Type := mk {
  char : string;
  imageData : string;
  createdAt : N;
  sourceUserId : string
}.
End Glyph.

Module Firestore.

(** A field of a [userGlyphs] document: a string or a map of strings. *)
Inductive field : Type :=
| FString (s : string)
| FMap (m : gmap string string).

Record t : Type := mk {
  globalGlyphs : gmap string Glyph.t;
  userGlyphs : gmap string (gmap string field)
}.

Definition empty : t := mk ∅ ∅.

(** [addDoc(collection(db, 'globalGlyphs'), g)] once the client has chosen
    the identifier [id]. *)
Definition addDoc (id : string) (g : Glyph.t) (fs : t) : t :=
  mk (<[id := g]> (globalGlyphs fs)) (userGlyphs fs).

Definition merge_field (new old : field) : option field :=
  match new, old with
  | FMap a, FMap b => Some (FMap (a ∪ b))
  | _, _ => Some new
  end.

(** [setDoc(doc(db, 'userGlyphs', id), data, { merge: true })]: the fields
    named by the keys of [data] are written, the other fields of the
    document are kept, a missing document is created.  A key is one field
    name, dots included. *)
Definition setDoc_merge (id : string) (data : gmap string field) (fs : t) : t :=
  mk (globalGlyphs fs)
     (<[id := union_with merge_field data (default ∅ (userGlyphs fs !! id))]>
        (userGlyphs fs)).

(** [Object.entries(s)] of a string: index and one-character string. *)
Definition string_entries (s : string) : gmap string string :=
  list_to_map (imap (λ i a, (pretty i, String a "")) (String.list_ascii_of_string s)).

(** [userDoc.data().charMap || {}], as the object [Object.entries] walks. *)
Definition charMap_of (d : gmap string field) : gmap string string :=
  match d !! "charMap" with
  | Some (FMap m) => m
  | Some (FString s) => string_entries s
  | None => ∅
  end.

(** The image data of the documents matched by
    [query(collection(db, 'globalGlyphs'), where('char', '==', c))]. *)
Definition query_char (c : string) (fs : t) : list string :=
  (λ kv, Glyph.imageData kv.2)
    <$> filter (λ kv, Glyph.char kv.2 = c) (map_to_list (globalGlyphs fs)).

End Firestore.

(** The state the module works on: the browser's [localStorage] and the
    [db] handle ([None] when Firebase is not configured). *)
Record World : Type := mkWorld {
  localStorage : LocalStorage.t;
  db : option Firestore.t
}.

(** What the environment decides. *)
Record Env : Type := mkEnv {
  now : N;                          (* Date.now() *)
  random36 : string;                (* Math.random().toString(36) *)
  autoId : string;                  (* glyphRef.id chosen by addDoc *)
  serverTimestamp : N;
  addDoc_error : option string;     (* error.code when addDoc rejects *)
  setDoc_error : option string;     (* error.code when setDoc rejects *)
  getDoc_error : string → string → bool;  (* getDoc(doc(db, coll, id)) rejects *)
  getDocs_error : string → bool;    (* getDocs of the query for a character rejects *)
  random : nat → Q;                 (* Math.random() of the i-th global lookup *)
  random_range : ∀ i, (0 <= random i)%Q ∧ (random i < 1)%Q;
  (** the order in which the concurrent global lookups complete *)
  settle : list (nat * string) → list (nat * string);
  settle_perm : ∀ l, settle l ≡ₚ l
}.

Definition GLOBAL_GLYPHS_COLLECTION : string := "globalGlyphs".
Definition USER_GLYPHS_COLLECTION : string := "userGlyphs".
Definition USER_ID_KEY : string := "absurde_user_id".

(* ===================================================================== *)
(** ** [getUserId] *)
(* ===================================================================== *)

(** ['user_' + Date.now() + '_' + Math.random().toString(36).substr(2, 9)] *)
Definition new_user_id (env : Env) : string :=
  "user_" +:+ pretty (now env) +:+ "_" +:+ JS.substr 2 9 (random36 env).

(** [!userId] for the result of [getItem]: [null] or the empty string. *)
Definition no_user_id (userId : option string) : bool :=
  match userId with
  | Some s => negb (JS.nonempty s)
  | None => true
  end.

Definition getUserId (env : Env) (st : LocalStorage.t)
  : result string * LocalStorage.t :=
  let userId := LocalStorage.getItem USER_ID_KEY st in
  if no_user_id userId then
    let userId := new_user_id env in
    match LocalStorage.setItem USER_ID_KEY userId st with
    | Some st' => (Ok userId, st')
    | None => (Throw QuotaExceeded, st)
    end
  else (Ok (default "" userId), st).

(* ===================================================================== *)
(** ** [saveLettering] *)
(* ===================================================================== *)

(** The [catch] of the remote path: the message depends on [error.code]. *)
Definition remote_error (code : string) : error :=
  if String.eqb code "permission-denied" then PermissionDenied
  else if String.eqb code "unavailable" then FirestoreUnavailable
  else Rethrown code.

(** [`local_glyph_${userId}_`] *)
Definition local_prefix (userId : string) : string :=
  "local_glyph_" +:+ userId +:+ "_".

(** [`local_glyph_${userId}_${char}`] *)
Definition local_key (userId char : string) : string :=
  "local_glyph_" +:+ userId +:+ "_" +:+ char.

Definition saveLettering (env : Env) (char imageData : JS.value) (w : World)
  : result string * World :=
  if negb (JS.truthy char) || negb (JS.is_string char)
     || Nat.eqb (JS.length char) 0
  then (Throw InvalidCharacter, w)
  else if negb (JS.truthy imageData) || negb (JS.is_string imageData)
          || negb (JS.startsWith (JS.to_string imageData) "data:image/")
  then (Throw InvalidImageData, w)
  else
    let char := JS.to_string char in
    let imageData := JS.to_string imageData in
    match getUserId env (localStorage w) with
    | (Throw e, st) => (Throw e, mkWorld st (db w))
    | (Ok userId, st) =>
        match db w with
        | None =>
            let localKey := local_key userId char in
            match LocalStorage.setItem localKey imageData st with
            | Some st' => (Ok localKey, mkWorld st' None)
            | None => (Throw LocalStorageNotAvailable, mkWorld st None)
            end
        | Some fs =>
            match addDoc_error env with
            | Some code => (Throw (remote_error code), mkWorld st (Some fs))
            | None =>
                let glyphId := autoId env in
                let fs1 :=
                  Firestore.addDoc glyphId
                    (Glyph.mk char imageData (serverTimestamp env) userId) fs in
                match setDoc_error env with
                | Some code => (Throw (remote_error code), mkWorld st (Some fs1))
                | None =>
                    (Ok glyphId,
                     mkWorld st
                       (Some (Firestore.setDoc_merge userId
                                {[ "charMap." +:+ char := Firestore.FString glyphId ]}
                                fs1)))
                end
            end
        end
    end.

(* ===================================================================== *)
(** ** Loading the user's own letterings *)
(* ===================================================================== *)

Inductive Source : Type := user | global.

Module Lettering.
(** An entry of [letteringImages]: [{ imageData, source }]. *)
Record t : Type := mk { imageData : string; source : Source }.
End Lettering.

(** One turn of the loop over [localStorage] in
    [loadLetteringsForInteraction]; the state is the pair of
    [letteringImages] and [charMap]. *)
Definition scan_step (userId : string)
    (acc : gmap string Lettering.t * gmap string string)
    (kv : string * string) : gmap string Lettering.t * gmap string string :=
  let '(key, imageData) := kv in
  if JS.nonempty key && JS.startsWith key (local_prefix userId) then
    let char := JS.replace key (local_prefix userId) in
    if JS.nonempty imageData then
      (<[char := Lettering.mk imageData user]> acc.1, <[char := key]> acc.2)
    else acc
  else acc.

(** The local branch of [loadLetteringsForInteraction]. *)
Definition scanLocal (userId : string) (st : LocalStorage.t)
  : gmap string Lettering.t * gmap string string :=
  foldl (scan_step userId) (∅, ∅) (LocalStorage.entries st).

(** The remote branch of [loadLetteringsForInteraction]: the [try] block and
    its [catch]. *)
Definition fetchRemote (env : Env) (userId : string) (fs : Firestore.t)
  : gmap string Lettering.t * gmap string string :=
  if getDoc_error env USER_GLYPHS_COLLECTION userId then (∅, ∅)
  else
    let charMap :=
      match Firestore.userGlyphs fs !! userId with
      | Some d => Firestore.charMap_of d
      | None => ∅
      end in
    (omap (λ glyphId,
             if getDoc_error env GLOBAL_GLYPHS_COLLECTION glyphId then None
             else (λ g, Lettering.mk (Glyph.imageData g) user)
                    <$> Firestore.globalGlyphs fs !! glyphId)
          charMap,
     charMap).

(** The body of [loadLetteringsForInteraction] once [userId] is known. *)
Definition ownLetterings (env : Env) (userId : string) (w : World)
  : gmap string Lettering.t * gmap string string :=
  match db w with
  | None => scanLocal userId (localStorage w)
  | Some fs => fetchRemote env userId fs
  end.

Definition loadLetteringsForInteraction (env : Env) (w : World)
  : result (gmap string Lettering.t * gmap string string) * World :=
  match getUserId env (localStorage w) with
  | (Throw e, st) => (Throw e, mkWorld st (db w))
  | (Ok userId, st) =>
      (Ok (ownLetterings env userId (mkWorld st (db w))), mkWorld st (db w))
  end.

(** One turn of the loop over [localStorage] in [loadUserLetterings]. *)
Definition scan_step_plain (userId : string) (acc : gmap string string)
    (kv : string * string) : gmap string string :=
  let '(key, imageData) := kv in
  if JS.nonempty key && JS.startsWith key (local_prefix userId) then
    let char := JS.replace key (local_prefix userId) in
    if JS.nonempty imageData then <[char := imageData]> acc else acc
  else acc.

(** The body of [loadUserLetterings] once [userId] is known. *)
Definition userLetterings (env : Env) (userId : string) (w : World)
  : gmap string string :=
  match db w with
  | None => foldl (scan_step_plain userId) ∅ (LocalStorage.entries (localStorage w))
  | Some fs =>
      if getDoc_error env USER_GLYPHS_COLLECTION userId then ∅
      else
        match Firestore.userGlyphs fs !! userId with
        | None => ∅
        | Some d =>
            omap (λ glyphId,
                    if getDoc_error env GLOBAL_GLYPHS_COLLECTION glyphId then None
                    else Glyph.imageData <$> Firestore.globalGlyphs fs !! glyphId)
                 (Firestore.charMap_of d)
        end
  end.

Definition loadUserLetterings (env : Env) (w : World)
  : result (gmap string string) * World :=
  match getUserId env (localStorage w) with
  | (Throw e, st) => (Throw e, mkWorld st (db w))
  | (Ok userId, st) =>
      (Ok (userLetterings env userId (mkWorld st (db w))), mkWorld st (db w))
  end.

(* ===================================================================== *)
(** ** The global pool and the resolution *)
(* ===================================================================== *)

(** [Math.floor(Math.random() * n)] for the draw [r]. *)
Definition randomIndex (r : Q) (n : nat) : nat :=
  Z.to_nat (Qfloor (r * inject_Z (Z.of_nat n))).

(** [getRandomGlobalGlyph(char)], called by the [i]-th lookup: [None] is
    [null] (or the [undefined] of an index out of range). *)
Definition getRandomGlobalGlyph (env : Env) (i : nat) (char : string)
    (db : option Firestore.t) : option string :=
  match db with
  | None => None
  | Some fs =>
      if getDocs_error env char then None
      else
        let glyphs := Firestore.query_char char fs in
        match glyphs with
        | [] => None
        | _ => glyphs !! randomIndex (random env i) (List.length glyphs)
        end
  end.

(** [requiredChars.filter(char => typeof char === 'string' && char.length > 0)] *)
Definition validChars (requiredChars : list JS.value) : list string :=
  JS.to_string
    <$> List.filter (λ char, JS.is_string char && Nat.ltb 0 (JS.length char))
          requiredChars.

(** [!!letteringImages[char]] *)
Definition has_glyph (letteringImages : gmap string Lettering.t) (char : string) : bool :=
  match letteringImages !! char with Some _ => true | None => false end.

(** The callback of [missingChars.map(async (char) => ...)], run when the
    lookup of job [(i, char)] completes. *)
Definition global_step (env : Env) (db : option Firestore.t)
    (letteringImages : gmap string Lettering.t) (job : nat * string)
  : gmap string Lettering.t :=
  match getRandomGlobalGlyph env job.1 job.2 db with
  | Some globalImageData =>
      if JS.nonempty globalImageData
      then <[job.2 := Lettering.mk globalImageData global]> letteringImages
      else letteringImages
  | None => letteringImages
  end.

Definition loadAllLetteringsForInteraction (env : Env) (requiredChars : JS.value)
    (w : World) : result (gmap string Lettering.t) * World :=
  match requiredChars with
  | JS.Arr requiredChars =>
      let validChars := validChars requiredChars in
      match loadLetteringsForInteraction env w with
      | (Throw e, w') => (Throw e, w')
      | (Ok (userLetterings, charMap), w') =>
          (* STEP 1: every entry of userLetterings is copied *)
          let letteringImages : gmap string Lettering.t :=
            list_to_map (map_to_list userLetterings) in
          (* STEP 2: the characters still missing are looked up concurrently *)
          let missingChars :=
            List.filter (λ char, negb (has_glyph letteringImages char)) validChars in
          let jobs := settle env (imap (λ i char, (i, char)) missingChars) in
          (Ok (foldl (global_step env (db w')) letteringImages jobs), w')
      end
  | _ => (Ok ∅, w)
  end.

(* ===================================================================== *)
(** ** Notions of the specification *)
(* ===================================================================== *)

(** Identity [U] is established on the device: [localStorage] holds it. *)
Definition identity (st : LocalStorage.t) (U : string) : Prop :=
  LocalStorage.getItem USER_ID_KEY st = Some U ∧ U ≠ "".

(** [missingChars] of step 2 for the own letterings [own]. *)
Definition missingChars (own : gmap string Lettering.t)
    (requiredChars : list JS.value) : list string :=
  List.filter (λ char, negb (has_glyph own char)) (validChars requiredChars).

(** The global lookups of step 2, in the order they complete. *)
Definition jobs (env : Env) (own : gmap string Lettering.t)
    (requiredChars : list JS.value) : list (nat * string) :=
  settle env (imap (λ i char, (i, char)) (missingChars own requiredChars)).

(** The result of steps 1 and 2 of the resolution for the own letterings
    [own]. *)
Definition resolved (env : Env) (db : option Firestore.t)
    (own : gmap string Lettering.t) (requiredChars : list JS.value)
  : gmap string Lettering.t :=
  foldl (global_step env db) own (jobs env own requiredChars).

(** [character] is a non-empty string. *)
Definition valid_character (v : JS.value) : Prop :=
  ∃ s, v = JS.Str s ∧ s ≠ "".

(** [image] is a non-empty string beginning with the image-data marker. *)
Definition valid_image (v : JS.value) : Prop :=
  ∃ s, v = JS.Str s ∧ s ≠ "" ∧ JS.startsWith s "data:image/" = true.

(** The data model's invariant of the global pool: every artifact holds an
    image beginning with the image-data marker. *)
Definition pool_valid (fs : Firestore.t) : Prop :=
  ∀ id g, Firestore.globalGlyphs fs !! id = Some g →
          JS.startsWith (Glyph.imageData g) "data:image/" = true.

(** The pointer map of identity [U] as the loaders read it. *)
Definition charMap (fs : Firestore.t) (U : string) : gmap string string :=
  match Firestore.userGlyphs fs !! U with
  | Some d => Firestore.charMap_of d
  | None => ∅
  end.

(** The device of [w] after identity [U] has taken it over. *)
Definition as_identity (U : string) (w : World) : World :=
  mkWorld
    (LocalStorage.mk (<[USER_ID_KEY := U]> (LocalStorage.items (localStorage w)))
                     (LocalStorage.writable (localStorage w)))
    (db w).

(** The result of the resolution has entries only for characters of the
    validated working set. *)
Definition keys_within_working_set (env : Env) (requiredChars : list JS.value)
    (w : World) : Prop :=
  ∀ m w' ch, loadAllLetteringsForInteraction env (JS.Arr requiredChars) w = (Ok m, w') →
             is_Some (m !! ch) → ch ∈ validChars requiredChars.

(* ===================================================================== *)
(** ** Sample devices, stores and environments *)
(* ===================================================================== *)

Module Sample.

Definition draw_range : ∀ i : nat, (0 <= 1 # 2)%Q ∧ (1 # 2 < 1)%Q.
Proof. intros _. split; [discriminate | reflexivity]. Defined.

(** Lookups completing in the reverse of the order they were issued. *)
Definition completion (l : list (nat * string)) : list (nat * string) :=
  reverse l.

Definition completion_perm : ∀ l, completion l ≡ₚ l :=
  λ l, reverse_Permutation l.

(** An environment whose [addDoc] picks [id] and whose global queries fail
    for the characters selected by [query_fails]. *)
Definition env (id : string) (query_fails : string → bool) : Env :=
  mkEnv 1733789234567%N "0.k3j5x9abcd1" id 1733789240000%N None None
        (λ _ _, false) query_fails (λ _, 1 # 2) draw_range
        completion completion_perm.

Definition no_fault : string → bool := λ _, false.

Definition imgA : string := "data:image/png;base64,AAAA".
Definition imgB : string := "data:image/png;base64,BBBB".

(** A device on which identity [U] is established. *)
Definition device (U : string) : LocalStorage.t :=
  LocalStorage.mk {[ USER_ID_KEY := U ]} true.

(** A pool with two artifacts for the character a; identity u1 points at the
    first one, in the documented layout of [userGlyphs]. *)
Definition pool : Firestore.t :=
  Firestore.mk
    {[ "g1" := Glyph.mk "a" imgA 1%N "u1"; "g2" := Glyph.mk "a" imgB 2%N "u2" ]}
    {[ "u1" := {[ "charMap" := Firestore.FMap {[ "a" := "g1" ]} ]} ]}.

(** A fresh device without Firebase. *)
Definition offline : World := mkWorld (LocalStorage.mk ∅ true) None.

(** A device of identity u without Firebase that holds a glyph for a. *)
Definition offline_a : World :=
  mkWorld (LocalStorage.mk {[ USER_ID_KEY := "u"; "local_glyph_u_a" := imgA ]} true)
          None.

(** The own letterings of that device. *)
Definition own_a : gmap string Lettering.t :=
  {[ "a" := Lettering.mk imgA user ]}.

(** Identity u in front of an empty remote store. *)
Definition online : World := mkWorld (device "u") (Some Firestore.empty).

(** [online] after [saveLettering('a', imgA)] and [saveLettering('b', imgB)]. *)
Definition online_saved : World :=
  (saveLettering (env "g2" no_fault) (JS.Str "b") (JS.Str imgB)
     (saveLettering (env "g1" no_fault) (JS.Str "a") (JS.Str imgA) online).2).2.

End Sample.

(* ===================================================================== *)
(** ** [lettering.js]: the lettering page *)
(* ===================================================================== *)

(** A JavaScript string is read as its sequence of code units; the sentence
    of the page has none above 255, the e with circumflex is the unit 234. *)
Definition SENTENCE : string :=
  "Aujourd'hui, maman est morte. Ou peut-" +:+ String (Ascii.ascii_of_N 234) "tre hier.".

(** [/[a-zA-ZÀ-ÿ]/.test(char)]: the ranges 65-90, 97-122 and 192-255. *)
Definition alphabetic (a : Ascii.ascii) : bool :=
  let n := Ascii.N_of_ascii a in
  ((65 <=? n) && (n <=? 90) || (97 <=? n) && (n <=? 122)
   || (192 <=? n) && (n <=? 255))%N.

(** [chars.add(char)] on a [Set], kept in insertion order. *)
Definition set_add (chars : list string) (char : string) : list string :=
  if decide (char ∈ chars) then chars else chars ++ [char].

(** [extractUniqueCharacters()] for the sentence [sentence]: the loop filling
    the [Set], then [Array.from(chars).sort()], which orders strings by their
    code units. *)
Definition extractUniqueCharacters (sentence : string) : list string :=
  merge_sort String.le
    (foldl (λ chars a, if alphabetic a then set_add chars (String a "") else chars)
           [] (String.list_ascii_of_string sentence)).

(** The state of the page: [uniqueCharacters], [currentCharacter] ([None] is
    [null]) and [letterings]. *)
Record Page : Type := mkPage {
  uniqueCharacters : list string;
  currentCharacter : option string;
  letterings : gmap string string
}.

(** [!letterings[char]] *)
Definition unfinished (letterings : gmap string string) (char : string) : bool :=
  match letterings !! char with
  | Some img => negb (JS.nonempty img)
  | None => true
  end.

(** [l.indexOf(c)], counting from [i]. *)
Fixpoint indexOf_from (l : list string) (c : string) (i : nat) : Z :=
  match l with
  | [] => (-1)%Z
  | x :: l' => if String.eqb x c then Z.of_nat i else indexOf_from l' c (S i)
  end.

(** [uniqueCharacters.indexOf(currentCharacter)]; no element is [null]. *)
Definition indexOf (l : list string) (c : option string) : Z :=
  match c with
  | Some c => indexOf_from l c 0
  | None => (-1)%Z
  end.

(** [findNextUnfinishedCharacter()]: the loop over the indices after
    [currentIndex], then the loop over the indices before it. *)
Definition findNextUnfinishedCharacter (uniqueCharacters : list string)
    (currentCharacter : option string) (letterings : gmap string string)
  : option string :=
  let currentIndex := indexOf uniqueCharacters currentCharacter in
  match List.find (unfinished letterings)
          (drop (Z.to_nat (currentIndex + 1)) uniqueCharacters) with
  | Some char => Some char
  | None =>
      List.find (unfinished letterings)
        (take (Z.to_nat currentIndex) uniqueCharacters)
  end.

(** Index [i] is the first one, going from [currentIndex + 1] to the end of
    the list and then from the start up to [currentIndex], whose character
    has no lettering. *)
Definition next_in_turn (uniqueCharacters : list string)
    (letterings : gmap string string) (currentIndex : Z) (i : nat) : Prop :=
  ((currentIndex < Z.of_nat i)%Z
   ∧ ∀ j c, (currentIndex < Z.of_nat j)%Z → j < i →
            uniqueCharacters !! j = Some c → unfinished letterings c = false)
  ∨ ((Z.of_nat i < currentIndex)%Z
     ∧ (∀ j c, (currentIndex < Z.of_nat j)%Z →
               uniqueCharacters !! j = Some c → unfinished letterings c = false)
     ∧ ∀ j c, j < i →
              uniqueCharacters !! j = Some c → unfinished letterings c = false).

(** The loop of [saveAndNext] over the alpha channel of the canvas:
    [for (let i = 3; i < pixels.length; i += 4) if (pixels[i] > 0) ...]. *)
Fixpoint hasDrawing (pixels : list N) : bool :=
  match pixels with
  | _ :: _ :: _ :: alpha :: rest => (0 <? alpha)%N || hasDrawing rest
  | _ => false
  end.

(** What the user and the browser contribute to one [saveAndNext]. *)
Record Canvas : Type := mkCanvas {
  pixels : list N;                 (* ctx.getImageData(...).data *)
  toDataURL : string;              (* canvas.toDataURL('image/png') *)
  confirmEmpty : bool;             (* window.confirm('The canvas appears empty...') *)
  foreign_mentions_Firebase : error → bool;
                                   (* message.includes('Firebase') of an error
                                      that is not the module's own *)
  onLine : bool                    (* navigator.onLine *)
}.

Inductive Alert : Type :=
| PleaseSelect            (* 'Please select a character to save.' *)
| AllCompleted            (* 'All characters completed! ...' *)
| CheckFirebase           (* 'Failed to save to Firebase. ...' *)
| NoInternet              (* 'No internet connection. ...' *)
| FailedToSave (e : error). (* 'Failed to save. Error: ' + error.message *)

(** [error.message && error.message.includes('Firebase')]: none of the
    messages of [saveLettering]'s own errors contains the word. *)
Definition mentions_Firebase (cv : Canvas) (e : error) : bool :=
  match e with
  | InvalidCharacter | InvalidImageData | LocalStorageNotAvailable
  | PermissionDenied | FirestoreUnavailable => false
  | Rethrown _ | QuotaExceeded => foreign_mentions_Firebase cv e
  end.

(** The [catch] of [saveAndNext]. *)
Definition save_alert (cv : Canvas) (e : error) : Alert :=
  if mentions_Firebase cv e then CheckFirebase
  else if negb (onLine cv) then NoInternet
  else FailedToSave e.

(** [saveAndNext()]: the alerts shown, the page and the stores afterwards.
    [selectCharacter(nextChar)] sets [currentCharacter]; rendering is not
    part of the state. *)
Definition saveAndNext (env : Env) (cv : Canvas) (p : Page) (w : World)
  : list Alert * Page * World :=
  if negb (from_option JS.nonempty false (currentCharacter p))
  then ([PleaseSelect], p, w)
  else
    let cur := default "" (currentCharacter p) in
    if negb (hasDrawing (pixels cv)) && negb (confirmEmpty cv)
    then ([], p, w)
    else
      let dataURL := toDataURL cv in
      let letterings' := <[cur := dataURL]> (letterings p) in
      match saveLettering env (JS.Str cur) (JS.Str dataURL) w with
      | (Ok _, w') =>
          match findNextUnfinishedCharacter (uniqueCharacters p)
                  (currentCharacter p) letterings' with
          | Some nextChar =>
              if JS.nonempty nextChar
              then ([], mkPage (uniqueCharacters p) (Some nextChar) letterings', w')
              else ([AllCompleted],
                    mkPage (uniqueCharacters p) (currentCharacter p) letterings', w')
          | None =>
              ([AllCompleted],
               mkPage (uniqueCharacters p) (currentCharacter p) letterings', w')
          end
      | (Throw e, w') =>
          ([save_alert cv e],
           mkPage (uniqueCharacters p) (currentCharacter p) letterings', w')
      end.

(** [loadLetteringsFromFirebase()]: the new value of [letterings]. *)
Definition loadLetteringsFromFirebase (env : Env) (w : World)
  : gmap string string * World :=
  match loadUserLetterings env w with
  | (Ok m, w') => (m, w')
  | (Throw _, w') => (∅, w')
  end.

(** [init()], as far as the state of the page goes. *)
Definition init (env : Env) (w : World) : result Page * World :=
  match getUserId env (localStorage w) with
  | (Throw e, st) => (Throw e, mkWorld st (db w))
  | (Ok _, st) =>
      let '(l, w') := loadLetteringsFromFirebase env (mkWorld st (db w)) in
      (Ok (mkPage (extractUniqueCharacters SENTENCE) None l), w')
  end.

(* ===================================================================== *)
(** ** [interaction-firebase.js] *)
(* ===================================================================== *)

(** The body of the loop of [loadCustomLetteringsFromFirebase] for one entry:
    entries without image data are skipped, so are images that fail to load
    ([decodes] tells whether [img.onload] fires for a source); an [Image] is
    represented by its [src]. *)
Definition load_image (decodes : string → bool) (data : Lettering.t)
  : option string :=
  if negb (JS.nonempty (Lettering.imageData data)) then None
  else if decodes (Lettering.imageData data) then Some (Lettering.imageData data)
  else None.

(** [loadCustomLetteringsFromFirebase(requiredChars)]; the [try] starts with
    [getUserId()] for the log, any exception gives [{}]. *)
Definition loadCustomLetteringsFromFirebase (env : Env) (decodes : string → bool)
    (requiredChars : JS.value) (w : World) : gmap string string * World :=
  match getUserId env (localStorage w) with
  | (Throw _, st) => (∅, mkWorld st (db w))
  | (Ok _, st) =>
      match loadAllLetteringsForInteraction env requiredChars (mkWorld st (db w)) with
      | (Ok letteringData, w') => (omap (load_image decodes) letteringData, w')
      | (Throw _, w') => (∅, w')
      end
  end.

(* ===================================================================== *)
(** ** Further sample data *)
(* ===================================================================== *)

Module Demo.

(** A canvas with one opaque pixel. *)
Definition canvas (url : string) : Canvas :=
  mkCanvas [0; 0; 0; 0; 255; 255; 255; 255]%N url false (λ _, false) true.

(** An environment whose [addDoc] or [setDoc] rejects. *)
Definition failing_env (id : string) (add set : option string) : Env :=
  mkEnv 1733789234567%N "0.k3j5x9abcd1" id 1733789240000%N add set
        (λ _ _, false) (λ _, false) (λ _, 1 # 2) Sample.draw_range
        Sample.completion Sample.completion_perm.

(** A device of identity u whose local storage refuses writes. *)
Definition full_device : World :=
  mkWorld (LocalStorage.mk {[ USER_ID_KEY := "u" ]} false) None.

(** The page with the characters a, b, c where b is selected and done. *)
Definition page : Page :=
  mkPage ["a"; "b"; "c"] (Some "b") {[ "b" := Sample.imgB ]}.

(** Identity u3 in front of the sample pool. *)
Definition visitor : World := mkWorld (Sample.device "u3") (Some Sample.pool).

Definition imgC : string := "data:image/png;base64,CCCC".

(** [visitor] after [saveLettering('a', imgC)], the artifact getting the
    identifier g3. *)
Definition visitor_saved : World :=
  (saveLettering (Sample.env "g3" Sample.no_fault) (JS.Str "a") (JS.Str imgC)
     visitor).2.

End Demo.

(* ===================================================================== *)
(** * Properties *)
(* ===================================================================== *)

(** ** Strings *)

Section string_facts.

Lemma append_cons a (s t : string) : String a s +:+ t = String a (s +:+ t).
Proof. reflexivity. Qed.

Lemma append_assoc (s t u : string) : (s +:+ t) +:+ u = s +:+ (t +:+ u).
Proof.
  induction s as [|a s IH]; [reflexivity|].
  by rewrite !append_cons, IH.
Qed.

Lemma nonempty_true (s : string) : JS.nonempty s = true ↔ s ≠ "".
Proof. destruct s; simpl; split; intros; done. Qed.

Lemma startsWith_append (p s : string) : JS.startsWith (p +:+ s) p = true.
Proof.
  unfold JS.startsWith.
  induction p as [|a p IH]; [by destruct s|].
  rewrite append_cons. simpl. by destruct (Ascii.ascii_dec a a).
Qed.

Lemma drop_append (p s : string) : JS.drop (String.length p) (p +:+ s) = s.
Proof.
  induction p as [|a p IH]; [by destruct s|].
  by rewrite append_cons.
Qed.

Lemma startsWith_split (k p : string) :
  JS.startsWith k p = true → k = p +:+ JS.drop (String.length p) k.
Proof.
  unfold JS.startsWith. revert k.
  induction p as [|a p IH]; intros k Hk; [by destruct k|].
  destruct k as [|b k]; [discriminate|].
  simpl in Hk. destruct (Ascii.ascii_dec a b) as [->|]; [|discriminate].
  rewrite append_cons. simpl. f_equal. by apply IH.
Qed.

Lemma replace_startsWith (k p : string) :
  JS.startsWith k p = true → JS.replace k p = JS.drop (String.length p) k.
Proof.
  unfold JS.startsWith. intros Hk.
  destruct k; cbn [JS.replace]; by rewrite Hk.
Qed.

(** A key yields the character [ch] in the scan of [localStorage] exactly
    when it is the prefix followed by [ch]. *)
Lemma strip_prefix_iff (k p ch : string) :
  JS.startsWith k p = true ∧ JS.replace k p = ch ↔ k = p +:+ ch.
Proof.
  split.
  - intros [Hk <-]. rewrite replace_startsWith by done.
    by apply startsWith_split.
  - intros ->. split; [apply startsWith_append|].
    rewrite replace_startsWith by apply startsWith_append.
    apply drop_append.
Qed.

Lemma local_key_prefix (userId char : string) :
  local_key userId char = local_prefix userId +:+ char.
Proof. unfold local_key, local_prefix. by rewrite !append_assoc. Qed.

Lemma local_key_not_id_key (userId char : string) :
  local_key userId char ≠ USER_ID_KEY.
Proof. discriminate. Qed.

End string_facts.

(** ** The identity *)

Section identity_facts.

Lemma new_user_id_nonempty env : JS.nonempty (new_user_id env) = true.
Proof. reflexivity. Qed.

Lemma getUserId_established env st U :
  identity st U → getUserId env st = (Ok U, st).
Proof.
  intros [Hget HU]. unfold getUserId. rewrite Hget. simpl.
  apply nonempty_true in HU. by rewrite HU.
Qed.

Lemma getUserId_first env st :
  no_user_id (LocalStorage.getItem USER_ID_KEY st) = true →
  LocalStorage.writable st = true →
  getUserId env st
  = (Ok (new_user_id env),
     LocalStorage.mk (<[USER_ID_KEY := new_user_id env]> (LocalStorage.items st)) true).
Proof.
  intros Hno Hw. unfold getUserId, LocalStorage.setItem.
  by rewrite Hno, Hw.
Qed.

Lemma identity_after_first env st :
  identity
    (LocalStorage.mk (<[USER_ID_KEY := new_user_id env]> (LocalStorage.items st)) true)
    (new_user_id env).
Proof.
  split.
  - unfold LocalStorage.getItem. simpl. apply lookup_insert_eq.
  - apply nonempty_true, new_user_id_nonempty.
Qed.

Lemma no_user_id_false st :
  no_user_id (LocalStorage.getItem USER_ID_KEY st) = false →
  ∃ U, identity st U.
Proof.
  unfold identity. destruct (LocalStorage.getItem USER_ID_KEY st) as [U|];
    simpl; [|discriminate].
  intros HU. exists U. split; [done|].
  apply nonempty_true. by destruct (JS.nonempty U).
Qed.

(** With a writable store [getUserId] returns a token and leaves it
    established. *)
Lemma getUserId_writable env st :
  LocalStorage.writable st = true →
  ∃ U st', getUserId env st = (Ok U, st') ∧ identity st' U
           ∧ LocalStorage.writable st' = true.
Proof.
  intros Hw.
  destruct (no_user_id (LocalStorage.getItem USER_ID_KEY st)) eqn:Hno.
  - eexists _, _. split; [by apply getUserId_first|].
    split; [apply identity_after_first | done].
  - destruct (no_user_id_false _ Hno) as [U HU].
    exists U, st. by rewrite (getUserId_established _ _ _ HU).
Qed.

End identity_facts.

(** ** The scan of local storage *)

Section local_scan.
Variable userId : string.

Lemma prefixed_key_nonempty ch :
  JS.nonempty (local_prefix userId +:+ ch) = true.
Proof. reflexivity. Qed.

(** An entry that does not qualify for [ch] leaves [ch] as it was. *)
Lemma scan_step_plain_other acc k v ch :
  (k = local_prefix userId +:+ ch → v = "") →
  scan_step_plain userId acc (k, v) !! ch = acc !! ch.
Proof.
  intros Hk. unfold scan_step_plain.
  destruct (JS.nonempty k && JS.startsWith k (local_prefix userId)) eqn:Hc;
    [|done].
  apply andb_prop in Hc as [_ Hs].
  destruct (JS.nonempty v) eqn:Hv; [|done].
  apply lookup_insert_ne. intros Heq.
  apply nonempty_true in Hv. apply Hv, Hk.
  by apply strip_prefix_iff.
Qed.

Lemma scan_step_plain_hit acc v ch :
  v ≠ "" →
  scan_step_plain userId acc (local_prefix userId +:+ ch, v) !! ch = Some v.
Proof.
  intros Hv. unfold scan_step_plain.
  rewrite prefixed_key_nonempty, startsWith_append. cbn [andb].
  apply nonempty_true in Hv. rewrite Hv.
  destruct (strip_prefix_iff (local_prefix userId +:+ ch)
              (local_prefix userId) ch) as [_ [_ ->]]; [done|].
  apply lookup_insert_eq.
Qed.

Lemma scan_plain_miss l acc ch :
  (∀ v, (local_prefix userId +:+ ch, v) ∈ l → v = "") →
  foldl (scan_step_plain userId) acc l !! ch = acc !! ch.
Proof.
  revert acc. induction l as [|[k v] l IH]; intros acc Hl; [done|].
  simpl. rewrite IH.
  - apply scan_step_plain_other. intros ->. apply Hl. by left.
  - intros v' Hv'. apply Hl. by right.
Qed.

Lemma scan_plain_hit l acc ch v :
  NoDup l.*1 → (local_prefix userId +:+ ch, v) ∈ l → v ≠ "" →
  foldl (scan_step_plain userId) acc l !! ch = Some v.
Proof.
  revert acc. induction l as [|[k v0] l IH]; intros acc Hnd Hin Hv.
  { by apply elem_of_nil in Hin. }
  rewrite fmap_cons in Hnd. apply NoDup_cons in Hnd as [Hk Hnd].
  apply elem_of_cons in Hin as [Heq|Hin]; simpl.
  - injection Heq as <- <-.
    rewrite scan_plain_miss; [by apply scan_step_plain_hit|].
    intros v' Hv'. exfalso. apply Hk.
    apply list_elem_of_fmap. by exists (local_prefix userId +:+ ch, v').
  - by apply IH.
Qed.

(** What [loadUserLetterings] finds in local storage: the character [ch] is
    mapped to [v] exactly when the key [local_glyph_<userId>_<ch>] holds the
    non-empty string [v]. *)
Lemma scan_plain_lookup (st : LocalStorage.t) ch v :
  foldl (scan_step_plain userId) ∅ (LocalStorage.entries st) !! ch = Some v
  ↔ LocalStorage.items st !! (local_prefix userId +:+ ch) = Some v ∧ v ≠ "".
Proof.
  unfold LocalStorage.entries. split.
  - intros Hres.
    destruct (LocalStorage.items st !! (local_prefix userId +:+ ch))
      as [v0|] eqn:Hk.
    + destruct (decide (v0 = "")) as [->|Hv0].
      * rewrite scan_plain_miss in Hres; [by rewrite lookup_empty in Hres|].
        intros v' Hv'%elem_of_map_to_list. congruence.
      * rewrite (scan_plain_hit _ _ _ v0) in Hres;
          [by simplify_eq | apply NoDup_fst_map_to_list
           | by apply elem_of_map_to_list | done].
    + rewrite scan_plain_miss in Hres; [by rewrite lookup_empty in Hres|].
      intros v' Hv'%elem_of_map_to_list. congruence.
  - intros [Hk Hv]. apply scan_plain_hit;
      [apply NoDup_fst_map_to_list | by apply elem_of_map_to_list | done].
Qed.

End local_scan.

Section own_letterings.

(** The scan of [loadLetteringsForInteraction] collects the images of the
    scan of [loadUserLetterings], tagged [user]. *)
Lemma scan_fold_fst userId l acc acc0 :
  acc.1 = (λ img, Lettering.mk img user) <$> acc0 →
  (foldl (scan_step userId) acc l).1
  = (λ img, Lettering.mk img user) <$> foldl (scan_step_plain userId) acc0 l.
Proof.
  revert acc acc0. induction l as [|[k v] l IH]; intros acc acc0 Hacc; [done|].
  simpl. apply IH.
  destruct (JS.nonempty k && JS.startsWith k (local_prefix userId)); [|done].
  destruct (JS.nonempty v); [|done].
  simpl. by rewrite fmap_insert, Hacc.
Qed.

Lemma scanLocal_lookup userId st ch e :
  (scanLocal userId st).1 !! ch = Some e
  ↔ ∃ v, e = Lettering.mk v user
         ∧ LocalStorage.items st !! (local_prefix userId +:+ ch) = Some v
         ∧ v ≠ "".
Proof.
  unfold scanLocal.
  rewrite (scan_fold_fst _ _ _ ∅) by (simpl; by rewrite fmap_empty).
  rewrite lookup_fmap, fmap_Some.
  split.
  - intros (v & Hv & ->). exists v. split; [done|]. by apply scan_plain_lookup.
  - intros (v & -> & Hv). exists v. split; [|done]. by apply scan_plain_lookup.
Qed.

Lemma fetchRemote_lookup env userId fs ch e :
  (fetchRemote env userId fs).1 !! ch = Some e
  ↔ getDoc_error env USER_GLYPHS_COLLECTION userId = false
    ∧ ∃ d glyphId g,
        Firestore.userGlyphs fs !! userId = Some d
        ∧ Firestore.charMap_of d !! ch = Some glyphId
        ∧ getDoc_error env GLOBAL_GLYPHS_COLLECTION glyphId = false
        ∧ Firestore.globalGlyphs fs !! glyphId = Some g
        ∧ e = Lettering.mk (Glyph.imageData g) user.
Proof.
  unfold fetchRemote.
  destruct (getDoc_error env USER_GLYPHS_COLLECTION userId).
  { simpl. rewrite lookup_empty. split; [done | by intros [? _]]. }
  simpl. rewrite lookup_omap, bind_Some. split.
  - intros (glyphId & Hptr & Hg). split; [done|].
    destruct (Firestore.userGlyphs fs !! userId) as [d|];
      [|by rewrite lookup_empty in Hptr].
    destruct (getDoc_error env GLOBAL_GLYPHS_COLLECTION glyphId) eqn:Herr;
      [done|].
    apply fmap_Some in Hg as (g & Hg & ->).
    by exists d, glyphId, g.
  - intros (_ & d & glyphId & g & -> & Hptr & Herr & Hg & ->).
    exists glyphId. split; [done|]. by rewrite Herr, Hg.
Qed.

(** Every entry of the user's own letterings carries the source [user]. *)
Lemma ownLetterings_source env userId w ch e :
  (ownLetterings env userId w).1 !! ch = Some e → Lettering.source e = user.
Proof.
  unfold ownLetterings. destruct (db w) as [fs|].
  - intros (_ & ? & ? & ? & _ & _ & _ & _ & ->)%fetchRemote_lookup. done.
  - intros (? & -> & _)%scanLocal_lookup. done.
Qed.

Lemma loadLetteringsForInteraction_established env w U :
  identity (localStorage w) U →
  loadLetteringsForInteraction env w = (Ok (ownLetterings env U w), w).
Proof.
  intros HU. unfold loadLetteringsForInteraction.
  rewrite (getUserId_established _ _ _ HU). by destruct w.
Qed.

Lemma loadUserLetterings_established env w U :
  identity (localStorage w) U →
  loadUserLetterings env w = (Ok (userLetterings env U w), w).
Proof.
  intros HU. unfold loadUserLetterings.
  rewrite (getUserId_established _ _ _ HU). by destruct w.
Qed.

End own_letterings.

(** ** The global pool *)

Section global_pool.

Lemma randomIndex_lt (r : Q) (n : nat) :
  (0 <= r)%Q → (r < 1)%Q → 0 < n → randomIndex r n < n.
Proof.
  intros H0 H1 Hn. unfold randomIndex.
  set (x := (r * inject_Z (Z.of_nat n))%Q).
  assert (Hpos : (0 < inject_Z (Z.of_nat n))%Q).
  { rewrite <- (Zlt_Qlt 0). lia. }
  assert (Hx0 : (0 <= x)%Q).
  { unfold x. apply Qmult_le_0_compat; [done|]. by apply Qlt_le_weak. }
  assert (Hx1 : (x < inject_Z (Z.of_nat n))%Q).
  { unfold x. rewrite <- (Qmult_1_l (inject_Z (Z.of_nat n))) at 2.
    by apply Qmult_lt_compat_r. }
  assert (Hf0 : (0 <= Qfloor x)%Z).
  { change 0%Z with (Qfloor 0). by apply Qfloor_resp_le. }
  assert (Hf1 : (Qfloor x < Z.of_nat n)%Z).
  { rewrite Zlt_Qlt. eapply Qle_lt_trans; [apply Qfloor_le | done]. }
  lia.
Qed.

Lemma elem_of_query_char c fs img :
  img ∈ Firestore.query_char c fs
  ↔ ∃ id g, Firestore.globalGlyphs fs !! id = Some g
            ∧ Glyph.char g = c ∧ Glyph.imageData g = img.
Proof.
  unfold Firestore.query_char. rewrite list_elem_of_fmap. split.
  - intros ([id g] & -> & [Hc Hin%elem_of_map_to_list]%list_elem_of_filter).
    by exists id, g.
  - intros (id & g & Hg & Hc & <-). exists (id, g). split; [done|].
    apply list_elem_of_filter. split; [done|]. by apply elem_of_map_to_list.
Qed.

(** Whatever [getRandomGlobalGlyph] returns is the image of a pool document
    for the character asked for. *)
Lemma getRandomGlobalGlyph_Some env i c db img :
  getRandomGlobalGlyph env i c db = Some img →
  ∃ fs, db = Some fs ∧ img ∈ Firestore.query_char c fs.
Proof.
  unfold getRandomGlobalGlyph. destruct db as [fs|]; [|done].
  destruct (getDocs_error env c); [done|].
  destruct (Firestore.query_char c fs) as [|x l] eqn:Hq; [done|].
  intros Hl. exists fs. split; [done|].
  rewrite Hq. apply list_elem_of_lookup. eexists. exact Hl.
Qed.

(** With a reachable store, a successful query and at least one match, a
    matching image is returned. *)
Lemma getRandomGlobalGlyph_found env i c fs img0 :
  getDocs_error env c = false →
  img0 ∈ Firestore.query_char c fs →
  ∃ img, getRandomGlobalGlyph env i c (Some fs) = Some img
         ∧ img ∈ Firestore.query_char c fs.
Proof.
  intros Herr Hin. unfold getRandomGlobalGlyph. rewrite Herr.
  destruct (Firestore.query_char c fs) as [|x l] eqn:Hq.
  { by apply elem_of_nil in Hin. }
  destruct (random_range env i) as [H0 H1].
  destruct (lookup_lt_is_Some_2 (x :: l)
              (randomIndex (random env i) (List.length (x :: l)))) as [img Himg].
  { apply randomIndex_lt; [done..|simpl; lia]. }
  exists img. split; [done|]. apply list_elem_of_lookup. eauto.
Qed.

Lemma getRandomGlobalGlyph_none env i c db :
  db = None ∨ getDocs_error env c = true
  ∨ (∃ fs, db = Some fs ∧ Firestore.query_char c fs = []) →
  getRandomGlobalGlyph env i c db = None.
Proof.
  unfold getRandomGlobalGlyph.
  intros [->|[Herr|(fs & -> & Hq)]]; [done| |].
  - destruct db; [by rewrite Herr | done].
  - rewrite Hq. by destruct (getDocs_error env c).
Qed.

End global_pool.

(** ** Step 2 of the resolution: the concurrent global lookups *)

Section global_lookups.
Variables (env : Env) (db : option Firestore.t).

Lemma global_step_other m job c :
  job.2 ≠ c → global_step env db m job !! c = m !! c.
Proof.
  intros Hne. unfold global_step.
  destruct (getRandomGlobalGlyph env job.1 job.2 db) as [img|]; [|done].
  destruct (JS.nonempty img); [|done].
  by apply lookup_insert_ne.
Qed.

(** A lookup changes the entry of its own character only. *)
Lemma global_fold_other queue m c :
  c ∉ queue.*2 → foldl (global_step env db) m queue !! c = m !! c.
Proof.
  induction queue as [|job queue IH] using rev_ind; intros Hc; [done|].
  rewrite foldl_app. simpl. rewrite fmap_app in Hc.
  rewrite global_step_other; [apply IH|]; set_solver.
Qed.

(** Lookups that return nothing (or an empty image) leave the character as
    it was. *)
Lemma global_fold_absent queue m c :
  (∀ i img, (i, c) ∈ queue → getRandomGlobalGlyph env i c db = Some img →
            img = "") →
  foldl (global_step env db) m queue !! c = m !! c.
Proof.
  induction queue as [|[i c'] queue IH] using rev_ind; intros Hjobs; [done|].
  rewrite foldl_app. simpl.
  destruct (decide (c' = c)) as [->|Hne].
  - unfold global_step at 1. simpl.
    destruct (getRandomGlobalGlyph env i c db) as [img|] eqn:Hg.
    + rewrite (Hjobs i img); [simpl; apply IH|set_solver|done].
      intros ????. eapply Hjobs; [|done]. set_solver.
    + apply IH. intros ????. eapply Hjobs; [|done]. set_solver.
  - rewrite global_step_other by done.
    apply IH. intros ????. eapply Hjobs; [|done]. set_solver.
Qed.

(** When every lookup for [c] returns a non-empty image satisfying [Q], and
    there is at least one, [c] ends with a [global] entry satisfying [Q]. *)
Lemma global_fold_found (Q : string → Prop) queue m c :
  (∀ i, (i, c) ∈ queue →
        ∃ img, getRandomGlobalGlyph env i c db = Some img ∧ img ≠ "" ∧ Q img) →
  c ∈ queue.*2 →
  ∃ img, foldl (global_step env db) m queue !! c = Some (Lettering.mk img global)
         ∧ Q img.
Proof.
  induction queue as [|[i c'] queue IH] using rev_ind; intros Hjobs Hc.
  { by apply elem_of_nil in Hc. }
  rewrite foldl_app. simpl.
  destruct (decide (c' = c)) as [->|Hne].
  - destruct (Hjobs i) as (img & Hg & Himg & HQ); [set_solver|].
    exists img. split; [|done].
    unfold global_step. simpl. rewrite Hg.
    apply nonempty_true in Himg. rewrite Himg. apply lookup_insert_eq.
  - rewrite global_step_other by done. apply IH.
    + intros i' Hi'. apply Hjobs. set_solver.
    + rewrite fmap_app in Hc. set_solver.
Qed.

(** Every entry after step 2 was there before or was written by a lookup
    for its character. *)
Lemma global_fold_entries queue m c e :
  foldl (global_step env db) m queue !! c = Some e →
  m !! c = Some e
  ∨ ∃ i img, (i, c) ∈ queue ∧ getRandomGlobalGlyph env i c db = Some img
             ∧ img ≠ "" ∧ e = Lettering.mk img global.
Proof.
  induction queue as [|[i c'] queue IH] using rev_ind; intros He; [by left|].
  rewrite foldl_app in He. simpl in He.
  destruct (decide (c' = c)) as [->|Hne].
  - unfold global_step in He at 1. simpl in He.
    destruct (getRandomGlobalGlyph env i c db) as [img|] eqn:Hg.
    + destruct (JS.nonempty img) eqn:Himg.
      * rewrite lookup_insert_eq in He. injection He as <-.
        right. exists i, img. apply nonempty_true in Himg. set_solver.
      * destruct (IH He) as [?|(i' & img' & ? & ?)]; [by left|].
        right. exists i', img'. set_solver.
    + destruct (IH He) as [?|(i' & img' & ? & ?)]; [by left|].
      right. exists i', img'. set_solver.
  - rewrite global_step_other in He by done.
    destruct (IH He) as [?|(i' & img' & ? & ?)]; [by left|].
    right. exists i', img'. set_solver.
Qed.

End global_lookups.

(** ** The resolution once the identity is established *)

Section resolution.
Variable env : Env.

Lemma elem_of_validChars requiredChars c :
  c ∈ validChars requiredChars ↔ JS.Str c ∈ requiredChars ∧ c ≠ "".
Proof.
  unfold validChars. rewrite list_elem_of_fmap. split.
  - intros (v & -> & Hv). apply list_elem_of_In, filter_In in Hv as [Hin Hv].
    apply andb_prop in Hv as [Hs Hl].
    destruct v as [| |b|z|s|l|]; try discriminate. simpl in *.
    split; [by apply list_elem_of_In|]. by destruct s.
  - intros [Hin Hc]. exists (JS.Str c). split; [done|].
    apply list_elem_of_In, filter_In. split; [by apply list_elem_of_In|].
    by destruct c.
Qed.

Lemma elem_of_missingChars own requiredChars c :
  c ∈ missingChars own requiredChars
  ↔ c ∈ validChars requiredChars ∧ own !! c = None.
Proof.
  unfold missingChars, has_glyph.
  rewrite list_elem_of_In, filter_In, <- list_elem_of_In.
  destruct (own !! c); naive_solver.
Qed.

Lemma elem_of_jobs own requiredChars i c :
  (i, c) ∈ jobs env own requiredChars → c ∈ missingChars own requiredChars.
Proof.
  unfold jobs. rewrite (settle_perm env).
  intros (i' & c' & [= -> ->] & Hl)%elem_of_lookup_imap.
  by apply list_elem_of_lookup_2 in Hl.
Qed.

Lemma jobs_cover own requiredChars c :
  c ∈ missingChars own requiredChars → c ∈ (jobs env own requiredChars).*2.
Proof.
  intros [i Hi]%list_elem_of_lookup_1.
  apply list_elem_of_fmap. exists (i, c). split; [done|].
  unfold jobs. rewrite (settle_perm env).
  by apply (elem_of_lookup_imap_2 (λ i char, (i, char))).
Qed.

Lemma jobs_only own requiredChars c :
  c ∈ (jobs env own requiredChars).*2 → c ∈ missingChars own requiredChars.
Proof.
  intros ([i c'] & -> & Hin)%list_elem_of_fmap. by eapply elem_of_jobs.
Qed.

(** [loadAllLetteringsForInteraction] for an established identity: the own
    letterings, then the global lookups in the order they complete; local
    storage is not written. *)
Lemma loadAll_established requiredChars w U :
  identity (localStorage w) U →
  loadAllLetteringsForInteraction env (JS.Arr requiredChars) w
  = (Ok (resolved env (db w) (ownLetterings env U w).1 requiredChars), w).
Proof.
  intros HU. unfold loadAllLetteringsForInteraction.
  rewrite (loadLetteringsForInteraction_established _ _ _ HU).
  destruct (ownLetterings env U w) as [own charMap]. simpl.
  by rewrite list_to_map_to_list.
Qed.

(** Without an established identity and with a local storage that refuses
    writes, [getUserId] fails inside the resolution and the exception
    escapes. *)
Lemma loadAll_without_identity requiredChars w :
  no_user_id (LocalStorage.getItem USER_ID_KEY (localStorage w)) = true →
  LocalStorage.writable (localStorage w) = false →
  (loadAllLetteringsForInteraction env (JS.Arr requiredChars) w).1
  = Throw QuotaExceeded.
Proof.
  intros Hno Hw.
  unfold loadAllLetteringsForInteraction, loadLetteringsForInteraction,
    getUserId, LocalStorage.setItem.
  by rewrite Hno, Hw.
Qed.

End resolution.

(** ** The three outcomes of the resolution *)

Section outcomes.
Variables (env : Env) (db : option Firestore.t).
Variables (own : gmap string Lettering.t) (requiredChars : list JS.value).


(** Step 2 never touches an entry recorded in step 1. *)
Lemma resolved_own c e : own !! c = Some e → resolved env db own requiredChars !! c = Some e.
Proof.
  intros Hown. unfold resolved. rewrite global_fold_other; [done|].
  intros [_ Hnone]%jobs_only%elem_of_missingChars. congruence.
Qed.

(** A character without own entry whose lookups all come back empty-handed
    stays unresolved. *)
Lemma resolved_absent c :
  own !! c = None →
  (∀ i, getRandomGlobalGlyph env i c db = None) →
  resolved env db own requiredChars !! c = None.
Proof.
  intros Hown Hnone. unfold resolved.
  rewrite global_fold_absent; [done|].
  intros i img _ Hg. by rewrite Hnone in Hg.
Qed.

(** A character of the working set without own entry, whose query succeeds
    and matches only non-empty images, gets one of them, tagged [global]. *)
Lemma resolved_global c fs img0 :
  db = Some fs →
  c ∈ validChars requiredChars →
  own !! c = None →
  getDocs_error env c = false →
  img0 ∈ Firestore.query_char c fs →
  (∀ img, img ∈ Firestore.query_char c fs → img ≠ "") →
  ∃ img, resolved env db own requiredChars !! c = Some (Lettering.mk img global)
         ∧ img ∈ Firestore.query_char c fs.
Proof.
  intros -> Hc Hown Herr Hin Hne. unfold resolved.
  apply global_fold_found.
  - intros i _.
    destruct (getRandomGlobalGlyph_found env i c fs img0 Herr Hin)
      as (img & Hg & Himg).
    exists img. split; [done|]. split; [by apply Hne | done].
  - apply jobs_cover, elem_of_missingChars. done.
Qed.

(** Every entry of the result is an own entry or a [global] entry for a
    missing character of the working set, taken from the pool. *)
Lemma resolved_entries c e :
  resolved env db own requiredChars !! c = Some e →
  own !! c = Some e
  ∨ (c ∈ validChars requiredChars ∧ own !! c = None
     ∧ ∃ fs, db = Some fs
             ∧ Lettering.imageData e ∈ Firestore.query_char c fs
             ∧ Lettering.source e = global).
Proof.
  intros [?|(i & img & Hjob & Hg & _ & ->)]%global_fold_entries; [by left|].
  right. apply elem_of_jobs, elem_of_missingChars in Hjob as [Hc Hown].
  split; [done|]. split; [done|].
  apply getRandomGlobalGlyph_Some in Hg as (fs & -> & Himg).
  by exists fs.
Qed.

End outcomes.

(** ** What [saveLettering] does to the remote store *)

Section save_facts.

Lemma pool_valid_nonempty fs c img :
  pool_valid fs → img ∈ Firestore.query_char c fs → img ≠ "".
Proof.
  intros Hp (id & g & Hg & _ & <-)%elem_of_query_char.
  specialize (Hp id g Hg). intros Heq. by rewrite Heq in Hp.
Qed.

Lemma validation_passed char imageData :
  valid_character char → valid_image imageData →
  (negb (JS.truthy char) || negb (JS.is_string char)
   || Nat.eqb (JS.length char) 0) = false
  ∧ (negb (JS.truthy imageData) || negb (JS.is_string imageData)
     || negb (JS.startsWith (JS.to_string imageData) "data:image/")) = false.
Proof.
  intros (c & -> & Hc) (img & -> & Himg & Hs). simpl. rewrite Hs.
  split.
  - destruct c; [done|]. reflexivity.
  - destruct img; [done|]. reflexivity.
Qed.

Lemma pointer_field_ne (c : string) : "charMap." +:+ c ≠ "charMap".
Proof. intros H. injection H as H. discriminate H. Qed.

(** The pointer written by [saveLettering] is a field of its own; the field
    [charMap] that the loaders read is never created or changed. *)
Lemma setDoc_pointer_charMap U c glyphId fs V :
  charMap
    (Firestore.setDoc_merge U {[ "charMap." +:+ c := Firestore.FString glyphId ]} fs) V
  = charMap fs V.
Proof.
  unfold charMap, Firestore.setDoc_merge. simpl.
  destruct (decide (U = V)) as [->|Hne]; [|by rewrite lookup_insert_ne].
  rewrite lookup_insert_eq. unfold Firestore.charMap_of.
  rewrite lookup_union_with, lookup_singleton_ne by apply pointer_field_ne.
  destruct (Firestore.userGlyphs fs !! V) as [d|]; simpl.
  - by destruct (d !! "charMap").
  - by rewrite lookup_empty.
Qed.

Lemma saveLettering_charMap env char imageData w r w' fs' V :
  saveLettering env char imageData w = (r, w') →
  db w' = Some fs' →
  ∃ fs, db w = Some fs ∧ charMap fs' V = charMap fs V.
Proof.
  unfold saveLettering. intros Hsave Hdb.
  destruct (negb (JS.truthy char) || negb (JS.is_string char)
            || Nat.eqb (JS.length char) 0); [simplify_eq; eauto|].
  destruct (negb (JS.truthy imageData) || negb (JS.is_string imageData)
            || negb (JS.startsWith (JS.to_string imageData) "data:image/"));
    [simplify_eq; eauto|].
  destruct (getUserId env (localStorage w)) as [[U|e] st];
    [|simplify_eq/=; eauto].
  destruct (db w) as [fs|].
  - exists fs. split; [done|].
    destruct (addDoc_error env); [by simplify_eq/=|].
    destruct (setDoc_error env); simplify_eq/=; [reflexivity|].
    by rewrite setDoc_pointer_charMap.
  - destruct (LocalStorage.setItem _ _ st); simplify_eq/=.
Qed.

(** [saveLettering] keeps the pool's invariant. *)
Lemma saveLettering_pool_valid env char imageData w r w' fs fs' :
  saveLettering env char imageData w = (r, w') →
  db w = Some fs → db w' = Some fs' →
  pool_valid fs → pool_valid fs'.
Proof.
  unfold saveLettering. intros Hsave Hdb Hdb' Hp.
  destruct (negb (JS.truthy char) || negb (JS.is_string char)
            || Nat.eqb (JS.length char) 0); [by simplify_eq|].
  destruct (negb (JS.truthy imageData) || negb (JS.is_string imageData)
            || negb (JS.startsWith (JS.to_string imageData) "data:image/"))
    eqn:Hv; [by simplify_eq|].
  apply orb_false_elim in Hv as [_ Hv%negb_false_iff].
  assert (Hadd : ∀ id U, pool_valid
            (Firestore.addDoc id
               (Glyph.mk (JS.to_string char) (JS.to_string imageData)
                  (serverTimestamp env) U) fs)).
  { intros id U id' g. unfold Firestore.addDoc. simpl.
    destruct (decide (id = id')) as [->|Hne].
    - rewrite lookup_insert_eq. by intros [= <-].
    - rewrite lookup_insert_ne by done. apply Hp. }
  destruct (getUserId env (localStorage w)) as [[U|e] st]; [|by simplify_eq/=].
  rewrite Hdb in Hsave.
  destruct (addDoc_error env); [by simplify_eq/=|].
  destruct (setDoc_error env); simplify_eq/=; [apply Hadd|].
  intros id g. unfold Firestore.setDoc_merge. simpl. apply Hadd.
Qed.

(** The local branch of [saveLettering]: the image is stored under the key of
    the caller's identity and the character, the identity stays established
    and the key is returned. *)
Lemma saveLettering_local env w U c img :
  db w = None →
  LocalStorage.writable (localStorage w) = true →
  (getUserId env (localStorage w)).1 = Ok U →
  c ≠ "" →
  JS.startsWith img "data:image/" = true →
  ∃ st',
    saveLettering env (JS.Str c) (JS.Str img) w
    = (Ok (local_key U c), mkWorld st' None)
    ∧ identity st' U
    ∧ LocalStorage.items st' !! (local_prefix U +:+ c) = Some img
    ∧ img ≠ "".
Proof.
  intros Hdb Hw HU Hc Himg.
  destruct (getUserId_writable env _ Hw) as (U' & st & Hget & Hid & Hst).
  rewrite Hget in HU. injection HU as ->.
  exists (LocalStorage.mk (<[local_key U c := img]> (LocalStorage.items st)) true).
  split; [|split; [|split]].
  - unfold saveLettering.
    destruct (validation_passed (JS.Str c) (JS.Str img)) as [-> ->];
      [by exists c | exists img; by destruct img |].
    rewrite Hget, Hdb. unfold LocalStorage.setItem. by rewrite Hst.
  - destruct Hid as [Hitem HUne]. split; [|done].
    unfold LocalStorage.getItem. simpl.
    rewrite lookup_insert_ne by apply local_key_not_id_key. exact Hitem.
  - simpl. rewrite <- local_key_prefix. apply lookup_insert_eq.
  - intros ->. discriminate Himg.
Qed.

End save_facts.

(** ** A save followed by a resolution, without Firebase *)

Section save_then_resolve.

(** In local mode a saved glyph is the caller's own entry of every later
    resolution. *)
Lemma resolve_after_local_save env env' (requiredChars : list JS.value) w U c img :
  db w = None →
  LocalStorage.writable (localStorage w) = true →
  (getUserId env (localStorage w)).1 = Ok U →
  c ≠ "" →
  JS.startsWith img "data:image/" = true →
  ∃ w' m,
    (saveLettering env (JS.Str c) (JS.Str img) w).2 = w'
    ∧ loadAllLetteringsForInteraction env' (JS.Arr requiredChars) w' = (Ok m, w')
    ∧ m !! c = Some (Lettering.mk img user).
Proof.
  intros Hdb Hw HU Hc Himg.
  destruct (saveLettering_local env w U c img)
    as (st' & Hsave & Hid & Hkey & Hne); try done.
  eexists (mkWorld st' None), _. split; [by rewrite Hsave|].
  split; [by apply (loadAll_established _ _ _ U)|].
  apply resolved_own. unfold ownLetterings. simpl.
  apply scanLocal_lookup. by exists img.
Qed.

End save_then_resolve.

(* ===================================================================== *)
(** * The properties of the specification *)
(* ===================================================================== *)

(** Step 2 keeps step 1.  When the own-artifact map of identity [U] holds an
    entry for the character [c] and [c] is among the required characters,
    the resolution maps [c] to that entry, with source [user], whatever the
    global pool, the failures of the store and the random draws are.  Whether
    a save puts [c] into the own-artifact map is a separate matter, see
    [resolve_after_local_save] and [remote_save_is_not_own]. *)
Theorem own_priority env (requiredChars : list JS.value) w U c e :
  identity (localStorage w) U →
  (ownLetterings env U w).1 !! c = Some e →
  JS.Str c ∈ requiredChars →
  ∃ m, loadAllLetteringsForInteraction env (JS.Arr requiredChars) w = (Ok m, w)
       ∧ m !! c = Some e
       ∧ Lettering.source e = user.
Proof.
  intros HU Hown _. eexists. split; [by apply loadAll_established|].
  split; [by apply resolved_own | by eapply ownLetterings_source].
Qed.

Lemma own_priority_witness :
  ∃ m, loadAllLetteringsForInteraction (Sample.env "g3" Sample.no_fault)
         (JS.Arr [JS.Str "a"]) (mkWorld (Sample.device "u1") (Some Sample.pool))
       = (Ok m, mkWorld (Sample.device "u1") (Some Sample.pool))
       ∧ m !! "a" = Some (Lettering.mk Sample.imgA user)
       ∧ Lettering.source (Lettering.mk Sample.imgA user) = user.
Proof.
  apply (own_priority _ _ _ "u1").
  - split; [reflexivity | discriminate].
  - vm_compute. reflexivity.
  - left.
Defined.

(** C9 (no array, nothing resolved).  If [requiredChars] is not an array the
    resolution returns the empty mapping; nothing is thrown and nothing is
    read or written. *)
Theorem not_an_array env requiredChars w :
  JS.isArray requiredChars = false →
  loadAllLetteringsForInteraction env requiredChars w = (Ok ∅, w).
Proof. by destruct requiredChars. Qed.

Lemma not_an_array_witness :
  loadAllLetteringsForInteraction (Sample.env "g3" Sample.no_fault)
    (JS.Str "abc") Sample.offline_a
  = (Ok ∅, Sample.offline_a).
Proof. apply not_an_array. reflexivity. Defined.

(** C3 (input validation).  If [character] is not a non-empty string, or
    [image] is not a non-empty string beginning with [data:image/],
    [saveLettering] throws one of its two validation errors; it does so
    whatever the state and the environment are, and leaves local storage and
    the remote store as they were. *)
Theorem save_invalid_input char imageData :
  ¬ valid_character char ∨ ¬ valid_image imageData →
  ∃ e, InvalidInput e
       ∧ ∀ env w, saveLettering env char imageData w = (Throw e, w).
Proof.
  intros Hbad. unfold saveLettering.
  destruct (negb (JS.truthy char) || negb (JS.is_string char)
            || Nat.eqb (JS.length char) 0) eqn:Hc.
  { exists InvalidCharacter. split; [by left | done]. }
  destruct (negb (JS.truthy imageData) || negb (JS.is_string imageData)
            || negb (JS.startsWith (JS.to_string imageData) "data:image/"))
    eqn:Hi.
  { exists InvalidImageData. split; [by right | done]. }
  exfalso. destruct Hbad as [Hbad|Hbad]; apply Hbad.
  - destruct char as [| |b|z|s|l|]; simpl in Hc;
      rewrite ?orb_true_r in Hc; try discriminate.
    exists s. split; [done|]. by destruct s.
  - destruct imageData as [| |b|z|s|l|]; simpl in Hi;
      rewrite ?orb_true_r in Hi; try discriminate.
    exists s.
    apply orb_false_elim in Hi as [_ Hs%negb_false_iff].
    split; [done|]. split; [by destruct s | done].
Qed.

Lemma save_invalid_input_witness :
  ∃ e, InvalidInput e
       ∧ ∀ env w, saveLettering env (JS.Str "a") (JS.Str "not-an-image") w
                  = (Throw e, w).
Proof.
  apply save_invalid_input. right.
  intros (s & [= <-] & _ & Hs). discriminate Hs.
Defined.

(** C8 (the identity is minted once).  With a writable local storage
    [getUserId] returns a token and persists it; on a device without token
    it is ["user_" + Date.now() + "_" +] the nine characters after the first
    two of [Math.random().toString(36)]; every later call, whatever the clock
    and the random source are then, returns the persisted token and changes
    nothing. *)
Theorem getUserId_idempotent env st :
  LocalStorage.writable st = true →
  ∃ U st',
    getUserId env st = (Ok U, st')
    ∧ LocalStorage.getItem USER_ID_KEY st' = Some U
    ∧ (no_user_id (LocalStorage.getItem USER_ID_KEY st) = true →
       U = "user_" +:+ pretty (now env) +:+ "_" +:+ JS.substr 2 9 (random36 env))
    ∧ ∀ env', getUserId env' st' = (Ok U, st').
Proof.
  intros Hw.
  destruct (no_user_id (LocalStorage.getItem USER_ID_KEY st)) eqn:Hno.
  - eexists _, _. split; [by apply getUserId_first|].
    pose proof (identity_after_first env st) as Hid.
    split; [apply Hid|]. split; [done|].
    intros env'. by apply getUserId_established.
  - destruct (no_user_id_false _ Hno) as [U HU].
    exists U, st. split; [by apply getUserId_established|].
    split; [apply HU|]. split; [done|].
    intros env'. by apply getUserId_established.
Qed.

Lemma getUserId_idempotent_witness :
  ∃ U st',
    getUserId (Sample.env "g1" Sample.no_fault) (LocalStorage.mk ∅ true)
    = (Ok U, st')
    ∧ LocalStorage.getItem USER_ID_KEY st' = Some U
    ∧ (no_user_id (LocalStorage.getItem USER_ID_KEY (LocalStorage.mk ∅ true)) = true →
       U = "user_" +:+ pretty (now (Sample.env "g1" Sample.no_fault)) +:+ "_"
             +:+ JS.substr 2 9 (random36 (Sample.env "g1" Sample.no_fault)))
    ∧ ∀ env', getUserId env' st' = (Ok U, st').
Proof. apply getUserId_idempotent. reflexivity. Defined.

(** C4 (local fallback round trip).  With Firebase not configured and a
    writable local storage, [saveLettering] for a valid character and image
    writes the image under the key [local_glyph_<U>_<c>] of the caller's
    identity [U], whatever that key held before, and returns the key; both
    loaders then return the image for [c], from local storage alone. *)
Theorem local_save_roundtrip env env' w U c img :
  db w = None →
  LocalStorage.writable (localStorage w) = true →
  (getUserId env (localStorage w)).1 = Ok U →
  c ≠ "" →
  JS.startsWith img "data:image/" = true →
  ∃ w',
    saveLettering env (JS.Str c) (JS.Str img) w = (Ok (local_key U c), w')
    ∧ db w' = None
    ∧ LocalStorage.getItem (local_key U c) (localStorage w') = Some img
    ∧ (∃ m, loadUserLetterings env' w' = (Ok m, w') ∧ m !! c = Some img)
    ∧ (∃ own cm, loadLetteringsForInteraction env' w' = (Ok (own, cm), w')
                 ∧ own !! c = Some (Lettering.mk img user)).
Proof.
  intros Hdb Hw HU Hc Himg.
  destruct (saveLettering_local env w U c img)
    as (st' & Hsave & Hid & Hkey & Hne); try done.
  exists (mkWorld st' None). split; [done|]. split; [done|]. split.
  { unfold LocalStorage.getItem. by rewrite local_key_prefix. }
  split.
  - eexists. split; [by apply (loadUserLetterings_established _ _ U)|].
    unfold userLetterings. simpl. by apply scan_plain_lookup.
  - exists (ownLetterings env' U (mkWorld st' None)).1,
           (ownLetterings env' U (mkWorld st' None)).2.
    split.
    + rewrite (loadLetteringsForInteraction_established _ _ U) by done.
      by destruct (ownLetterings env' U (mkWorld st' None)).
    + unfold ownLetterings. simpl. apply scanLocal_lookup. by exists img.
Qed.

Lemma local_save_roundtrip_witness :
  ∃ w',
    saveLettering (Sample.env "g1" Sample.no_fault) (JS.Str "a")
      (JS.Str Sample.imgA) Sample.offline
    = (Ok (local_key "user_1733789234567_k3j5x9abc" "a"), w')
    ∧ db w' = None
    ∧ LocalStorage.getItem (local_key "user_1733789234567_k3j5x9abc" "a")
        (localStorage w') = Some Sample.imgA
    ∧ (∃ m, loadUserLetterings (Sample.env "g2" Sample.no_fault) w' = (Ok m, w')
            ∧ m !! "a" = Some Sample.imgA)
    ∧ (∃ own cm,
         loadLetteringsForInteraction (Sample.env "g2" Sample.no_fault) w'
         = (Ok (own, cm), w')
         ∧ own !! "a" = Some (Lettering.mk Sample.imgA user)).
Proof.
  apply local_save_roundtrip; [reflexivity | reflexivity | | discriminate | reflexivity].
  vm_compute. reflexivity.
Defined.

(** C10 (the local scan goes by key prefix).  Without Firebase the loaders of
    identity [idA] return exactly the local entries with a non-empty image
    whose key begins with [local_glyph_<idA>_], under the rest of the key as
    character.  So a glyph that identity [idA_t] saved for [c] on the device
    is returned to [idA] as well, under the character [t_c]. *)
Theorem local_scan_by_prefix env env' w idA t c img :
  db w = None →
  LocalStorage.writable (localStorage w) = true →
  identity (localStorage w) (idA +:+ "_" +:+ t) →
  idA ≠ "" →
  c ≠ "" →
  JS.startsWith img "data:image/" = true →
  ∃ w',
    saveLettering env (JS.Str c) (JS.Str img) w
    = (Ok (local_key (idA +:+ "_" +:+ t) c), w')
    ∧ ∃ m own cm,
        loadUserLetterings env' (as_identity idA w') = (Ok m, as_identity idA w')
        ∧ loadLetteringsForInteraction env' (as_identity idA w')
          = (Ok (own, cm), as_identity idA w')
        ∧ (∀ ch v,
             m !! ch = Some v
             ↔ LocalStorage.getItem (local_prefix idA +:+ ch)
                 (localStorage (as_identity idA w')) = Some v ∧ v ≠ "")
        ∧ (∀ ch v, own !! ch = Some (Lettering.mk v user) ↔ m !! ch = Some v)
        ∧ m !! (t +:+ "_" +:+ c) = Some img.
Proof.
  intros Hdb Hw HidB HA Hc Himg.
  destruct (saveLettering_local env w (idA +:+ "_" +:+ t) c img)
    as (st' & Hsave & _ & Hkey & Hne); try done.
  { by rewrite (getUserId_established _ _ _ HidB). }
  exists (mkWorld st' None). split; [done|].
  set (wA := as_identity idA (mkWorld st' None)).
  assert (HidA : identity (localStorage wA) idA).
  { split; [|done]. unfold LocalStorage.getItem. simpl. apply lookup_insert_eq. }
  assert (Hm : ∀ ch v,
    userLetterings env' idA wA !! ch = Some v
    ↔ LocalStorage.getItem (local_prefix idA +:+ ch) (localStorage wA) = Some v
      ∧ v ≠ "").
  { intros ch v. unfold userLetterings. simpl. apply scan_plain_lookup. }
  exists (userLetterings env' idA wA), (ownLetterings env' idA wA).1,
         (ownLetterings env' idA wA).2.
  split; [by apply loadUserLetterings_established|].
  split.
  { rewrite (loadLetteringsForInteraction_established _ _ idA) by done.
    by destruct (ownLetterings env' idA wA). }
  split; [done|]. split.
  - intros ch v. rewrite Hm. unfold ownLetterings. simpl.
    rewrite scanLocal_lookup. unfold LocalStorage.getItem. split.
    + by intros (v' & [= <-] & ?).
    + intros ?. by exists v.
  - apply Hm. split; [|done].
    unfold LocalStorage.getItem. simpl.
    rewrite lookup_insert_ne by discriminate.
    rewrite <- Hkey. f_equal.
    unfold local_prefix. by rewrite !append_assoc.
Qed.

Lemma local_scan_by_prefix_witness :
  ∃ w',
    saveLettering (Sample.env "g1" Sample.no_fault) (JS.Str "c")
      (JS.Str Sample.imgB) (mkWorld (Sample.device "u_x") None)
    = (Ok "local_glyph_u_x_c", w')
    ∧ ∃ m, loadUserLetterings (Sample.env "g2" Sample.no_fault) (as_identity "u" w')
           = (Ok m, as_identity "u" w')
           ∧ m !! "x_c" = Some Sample.imgB.
Proof.
  destruct (local_scan_by_prefix (Sample.env "g1" Sample.no_fault)
              (Sample.env "g2" Sample.no_fault)
              (mkWorld (Sample.device "u_x") None) "u" "x" "c" Sample.imgB)
    as (w' & Hsave & m & _ & _ & Hload & _ & _ & _ & Hm).
  - reflexivity.
  - reflexivity.
  - split; [reflexivity | discriminate].
  - discriminate.
  - discriminate.
  - reflexivity.
  - exists w'. split; [exact Hsave|]. exists m. split; [exact Hload | exact Hm].
Defined.

(** C5 (graceful absence).  For an established identity the resolution
    returns a mapping and throws nothing.  A character [c] without own entry
    whose global lookup finds nothing (no remote store, or no pool artifact
    for [c]) or fails is left without entry, and the resolution of the other
    characters goes on: own entries are kept, and a character of the working
    set with a successful query and matching pool artifacts gets one of their
    images. *)
Theorem graceful_absence env (requiredChars : list JS.value) w U c :
  identity (localStorage w) U →
  (ownLetterings env U w).1 !! c = None →
  (db w = None ∨ getDocs_error env c = true
   ∨ ∃ fs, db w = Some fs ∧ Firestore.query_char c fs = []) →
  ∃ m,
    loadAllLetteringsForInteraction env (JS.Arr requiredChars) w = (Ok m, w)
    ∧ m !! c = None
    ∧ (∀ c' e, (ownLetterings env U w).1 !! c' = Some e → m !! c' = Some e)
    ∧ (∀ c' fs img0,
         db w = Some fs → pool_valid fs →
         c' ∈ validChars requiredChars →
         (ownLetterings env U w).1 !! c' = None →
         getDocs_error env c' = false →
         img0 ∈ Firestore.query_char c' fs →
         ∃ img, m !! c' = Some (Lettering.mk img global)
                ∧ img ∈ Firestore.query_char c' fs).
Proof.
  intros HU Hown Hnone. eexists. split; [by apply loadAll_established|].
  split; [|split].
  - apply resolved_absent; [done|].
    intros i. by apply getRandomGlobalGlyph_none.
  - intros c' e. apply resolved_own.
  - intros c' fs img0 Hdb Hp Hc' Hown' Herr Hin.
    eapply resolved_global; eauto using pool_valid_nonempty.
Qed.

Lemma graceful_absence_witness :
  ∃ m,
    loadAllLetteringsForInteraction (Sample.env "g3" (String.eqb "z"))
      (JS.Arr [JS.Str "z"; JS.Str "a"; JS.Str "b"])
      (mkWorld (Sample.device "u3") (Some Sample.pool))
    = (Ok m, mkWorld (Sample.device "u3") (Some Sample.pool))
    ∧ m !! "z" = None.
Proof.
  destruct (graceful_absence (Sample.env "g3" (String.eqb "z"))
              [JS.Str "z"; JS.Str "a"; JS.Str "b"]
              (mkWorld (Sample.device "u3") (Some Sample.pool)) "u3" "z")
    as (m & Hm & Hz & _).
  - split; [reflexivity | discriminate].
  - vm_compute. reflexivity.
  - right. left. reflexivity.
  - exists m. split; [exact Hm | exact Hz].
Defined.

(** C7 (global fallback).  If identity [U] has no own entry for the character
    [c], the remote store is reachable, the query for [c] succeeds and the
    pool, whose artifacts hold images with the image-data marker, contains an
    artifact for [c], then the resolution of [[c]] maps [c] to the image of
    one of the pool's artifacts for [c], with source [global]. *)
Theorem global_fallback env w U c fs img0 :
  identity (localStorage w) U →
  (ownLetterings env U w).1 !! c = None →
  c ≠ "" →
  db w = Some fs →
  pool_valid fs →
  getDocs_error env c = false →
  img0 ∈ Firestore.query_char c fs →
  ∃ m img,
    loadAllLetteringsForInteraction env (JS.Arr [JS.Str c]) w = (Ok m, w)
    ∧ m !! c = Some (Lettering.mk img global)
    ∧ ∃ id g, Firestore.globalGlyphs fs !! id = Some g
              ∧ Glyph.char g = c ∧ Glyph.imageData g = img.
Proof.
  intros HU Hown Hc Hdb Hp Herr Hin.
  destruct (resolved_global env (db w) (ownLetterings env U w).1 [JS.Str c]
              c fs img0) as (img & Hm & Himg); try done.
  { apply elem_of_validChars. split; [by left | done]. }
  { eauto using pool_valid_nonempty. }
  eexists _, img. split; [by apply loadAll_established|].
  split; [done|]. by apply elem_of_query_char.
Qed.

Lemma global_fallback_witness :
  ∃ m img,
    loadAllLetteringsForInteraction (Sample.env "g3" Sample.no_fault)
      (JS.Arr [JS.Str "a"]) (mkWorld (Sample.device "u3") (Some Sample.pool))
    = (Ok m, mkWorld (Sample.device "u3") (Some Sample.pool))
    ∧ m !! "a" = Some (Lettering.mk img global)
    ∧ ∃ id g, Firestore.globalGlyphs Sample.pool !! id = Some g
              ∧ Glyph.char g = "a" ∧ Glyph.imageData g = img.
Proof.
  apply (global_fallback _ _ "u3" "a" Sample.pool Sample.imgA).
  - split; [reflexivity | discriminate].
  - vm_compute. reflexivity.
  - discriminate.
  - reflexivity.
  - intros id g Hg%elem_of_map_to_list.
    let l := eval vm_compute in (map_to_list (Firestore.globalGlyphs Sample.pool)) in
    change (map_to_list (Firestore.globalGlyphs Sample.pool)) with l in Hg.
    apply elem_of_cons in Hg as [[= -> ->]|Hg]; [reflexivity|].
    apply elem_of_cons in Hg as [[= -> ->]|Hg]; [reflexivity|].
    by apply elem_of_nil in Hg.
  - reflexivity.
  - apply elem_of_query_char.
    exists "g1", (Glyph.mk "a" Sample.imgA 1%N "u1"). by split.
Defined.

(** C6 does not hold as stated: on a device whose user has saved a glyph for
    a, resolving the single required character b returns an entry for a. *)
Lemma result_outside_working_set :
  ¬ keys_within_working_set (Sample.env "g3" Sample.no_fault) [JS.Str "b"]
      Sample.offline_a.
Proof.
  intros Hkeys.
  assert (Hin : "a" ∈ validChars [JS.Str "b"]).
  { apply (Hkeys Sample.own_a Sample.offline_a).
    - vm_compute. reflexivity.
    - unfold Sample.own_a. rewrite lookup_singleton_eq. by eexists. }
  apply elem_of_validChars in Hin as [Hin _].
  apply list_elem_of_singleton in Hin. discriminate Hin.
Qed.

(** C6, amended.  The result of the resolution holds every entry of the
    caller's own-artifact map, whether or not its character is required, and
    apart from these only [global] entries for characters of the validated
    working set that have no own entry. *)
Theorem result_entries env (requiredChars : list JS.value) w U m w' :
  identity (localStorage w) U →
  loadAllLetteringsForInteraction env (JS.Arr requiredChars) w = (Ok m, w') →
  (∀ ch e, (ownLetterings env U w).1 !! ch = Some e →
           m !! ch = Some e ∧ Lettering.source e = user)
  ∧ (∀ ch e, m !! ch = Some e →
             (ownLetterings env U w).1 !! ch = Some e
             ∨ (ch ∈ validChars requiredChars
                ∧ (ownLetterings env U w).1 !! ch = None
                ∧ Lettering.source e = global)).
Proof.
  intros HU. rewrite (loadAll_established _ _ _ _ HU). intros [= <- <-].
  split.
  - intros ch e Hown. split; [by apply resolved_own|].
    by eapply ownLetterings_source.
  - intros ch e [?|(Hc & Hown & fs & _ & _ & Hsrc)]%resolved_entries;
      [by left | by right].
Qed.

Lemma result_entries_witness :
  (∀ ch e, (ownLetterings (Sample.env "g3" Sample.no_fault) "u" Sample.offline_a).1
             !! ch = Some e →
           Sample.own_a !! ch = Some e ∧ Lettering.source e = user)
  ∧ (∀ ch e, Sample.own_a !! ch = Some e →
             (ownLetterings (Sample.env "g3" Sample.no_fault) "u" Sample.offline_a).1
               !! ch = Some e
             ∨ (ch ∈ validChars [JS.Str "b"]
                ∧ (ownLetterings (Sample.env "g3" Sample.no_fault) "u"
                     Sample.offline_a).1 !! ch = None
                ∧ Lettering.source e = global)).
Proof.
  apply (result_entries _ [JS.Str "b"] Sample.offline_a "u" _ Sample.offline_a).
  - split; [reflexivity | discriminate].
  - vm_compute. reflexivity.
Defined.

(** C2 (pointer merge), evaluated on the remote store.  Identity u saves a
    glyph for a and then one for b; both calls succeed and return the
    identifiers of the new artifacts.  The user's document then holds the two
    fields [charMap.a] and [charMap.b], the second save having kept the
    first, but no field [charMap]; the loaders, which read the field
    [charMap], return no letterings at all for u. *)
Theorem pointer_merge_not_loaded :
  (saveLettering (Sample.env "g1" Sample.no_fault) (JS.Str "a")
     (JS.Str Sample.imgA) Sample.online).1 = Ok "g1"
  ∧ (saveLettering (Sample.env "g2" Sample.no_fault) (JS.Str "b")
       (JS.Str Sample.imgB)
       (saveLettering (Sample.env "g1" Sample.no_fault) (JS.Str "a")
          (JS.Str Sample.imgA) Sample.online).2).1 = Ok "g2"
  ∧ (∃ fs d, db Sample.online_saved = Some fs
             ∧ Firestore.userGlyphs fs !! "u" = Some d
             ∧ d !! "charMap.a" = Some (Firestore.FString "g1")
             ∧ d !! "charMap.b" = Some (Firestore.FString "g2")
             ∧ d !! "charMap" = None)
  ∧ loadLetteringsForInteraction (Sample.env "g3" Sample.no_fault)
      Sample.online_saved = (Ok (∅, ∅), Sample.online_saved)
  ∧ loadUserLetterings (Sample.env "g3" Sample.no_fault) Sample.online_saved
    = (Ok ∅, Sample.online_saved).
Proof.
  split; [vm_compute; reflexivity|].
  split; [vm_compute; reflexivity|].
  split.
  { eexists _, _. split; [vm_compute; reflexivity|].
    split; [vm_compute; reflexivity|].
    repeat split; vm_compute; reflexivity. }
  split; vm_compute; reflexivity.
Qed.

(* ===================================================================== *)
(** * Further properties of [firebase-storage.js] *)
(* ===================================================================== *)

Section remote_save.

(** The three states in which [saveLettering] can leave a configured store:
    untouched, with the new artifact only, or with artifact and pointer. *)
Lemma saveLettering_remote_cases env char imageData w fs r w' :
  saveLettering env char imageData w = (r, w') →
  db w = Some fs →
  db w' = Some fs
  ∨ ∃ U,
      let fs1 := Firestore.addDoc (autoId env)
                   (Glyph.mk (JS.to_string char) (JS.to_string imageData)
                      (serverTimestamp env) U) fs in
      db w' = Some fs1
      ∨ db w' = Some (Firestore.setDoc_merge U
                        {[ "charMap." +:+ JS.to_string char
                           := Firestore.FString (autoId env) ]} fs1).
Proof.
  unfold saveLettering. intros Hsave Hdb.
  destruct (negb (JS.truthy char) || negb (JS.is_string char)
            || Nat.eqb (JS.length char) 0); [simplify_eq; by left|].
  destruct (negb (JS.truthy imageData) || negb (JS.is_string imageData)
            || negb (JS.startsWith (JS.to_string imageData) "data:image/"));
    [simplify_eq; by left|].
  destruct (getUserId env (localStorage w)) as [[U|e] st];
    [|simplify_eq/=; by left].
  rewrite Hdb in Hsave.
  destruct (addDoc_error env); [simplify_eq/=; by left|].
  destruct (setDoc_error env); simplify_eq/=; right; exists U; [by left | by right].
Qed.

(** The outcome of [saveLettering] on a configured store for an established
    identity and valid arguments, by the failures of the two writes. *)
Lemma saveLettering_remote env w U fs c img :
  identity (localStorage w) U →
  db w = Some fs →
  c ≠ "" →
  JS.startsWith img "data:image/" = true →
  saveLettering env (JS.Str c) (JS.Str img) w
  = match addDoc_error env with
    | Some code => (Throw (remote_error code), w)
    | None =>
        let fs1 := Firestore.addDoc (autoId env)
                     (Glyph.mk c img (serverTimestamp env) U) fs in
        match setDoc_error env with
        | Some code =>
            (Throw (remote_error code), mkWorld (localStorage w) (Some fs1))
        | None =>
            (Ok (autoId env),
             mkWorld (localStorage w)
               (Some (Firestore.setDoc_merge U
                        {[ "charMap." +:+ c := Firestore.FString (autoId env) ]}
                        fs1)))
        end
    end.
Proof.
  intros HU Hdb Hc Himg. unfold saveLettering.
  destruct (validation_passed (JS.Str c) (JS.Str img)) as [-> ->];
    [by exists c | exists img; by destruct img |].
  rewrite (getUserId_established _ _ _ HU), Hdb. simpl.
  destruct (addDoc_error env); [by destruct w; simplify_eq/=|].
  by destruct (setDoc_error env).
Qed.

End remote_save.

(** X1 (append only).  Whatever its arguments and whatever fails,
    [saveLettering] on a configured store whose [addDoc] picks an unused
    identifier keeps every artifact of the pool as it was: none is removed,
    none is changed. *)
Theorem save_append_only env char imageData w fs r w' :
  saveLettering env char imageData w = (r, w') →
  db w = Some fs →
  Firestore.globalGlyphs fs !! autoId env = None →
  ∃ fs', db w' = Some fs'
         ∧ Firestore.globalGlyphs fs ⊆ Firestore.globalGlyphs fs'.
Proof.
  intros Hsave Hdb Hfresh.
  destruct (saveLettering_remote_cases _ _ _ _ _ _ _ Hsave Hdb)
    as [Hw'|(U & [Hw'|Hw'])]; eexists; (split; [exact Hw'|]); simpl.
  - done.
  - by apply insert_subseteq.
  - by apply insert_subseteq.
Qed.

Lemma save_append_only_witness :
  ∃ fs', db (saveLettering (Sample.env "g3" Sample.no_fault) (JS.Str "b")
               (JS.Str Sample.imgB) Demo.visitor).2 = Some fs'
         ∧ Firestore.globalGlyphs Sample.pool ⊆ Firestore.globalGlyphs fs'.
Proof.
  apply (save_append_only (Sample.env "g3" Sample.no_fault) (JS.Str "b")
           (JS.Str Sample.imgB) Demo.visitor Sample.pool
           (saveLettering (Sample.env "g3" Sample.no_fault) (JS.Str "b")
              (JS.Str Sample.imgB) Demo.visitor).1).
  - by destruct (saveLettering _ _ _ _).
  - reflexivity.
  - vm_compute. reflexivity.
Defined.

(** X2 (a remote save records the artifact).  For an established identity
    [U], valid arguments and a store that accepts both writes,
    [saveLettering] returns the identifier chosen by [addDoc]; the pool then
    holds under it the artifact with the character, the image, the server's
    timestamp and [U] as source user, and local storage is as before. *)
Theorem save_remote_records env w U fs c img :
  identity (localStorage w) U →
  db w = Some fs →
  c ≠ "" →
  JS.startsWith img "data:image/" = true →
  addDoc_error env = None →
  setDoc_error env = None →
  ∃ fs',
    saveLettering env (JS.Str c) (JS.Str img) w
    = (Ok (autoId env), mkWorld (localStorage w) (Some fs'))
    ∧ Firestore.globalGlyphs fs' !! autoId env
      = Some (Glyph.mk c img (serverTimestamp env) U).
Proof.
  intros HU Hdb Hc Himg Hadd Hset.
  rewrite (saveLettering_remote _ _ U fs) by done. rewrite Hadd, Hset.
  eexists. split; [done|]. simpl. apply lookup_insert_eq.
Qed.

Lemma save_remote_records_witness :
  ∃ fs',
    saveLettering (Sample.env "g3" Sample.no_fault) (JS.Str "b")
      (JS.Str Sample.imgB) Demo.visitor
    = (Ok "g3", mkWorld (Sample.device "u3") (Some fs'))
    ∧ Firestore.globalGlyphs fs' !! "g3"
      = Some (Glyph.mk "b" Sample.imgB 1733789240000%N "u3").
Proof.
  apply (save_remote_records (Sample.env "g3" Sample.no_fault) Demo.visitor
           "u3" Sample.pool "b" Sample.imgB).
  - split; [reflexivity | discriminate].
  - reflexivity.
  - discriminate.
  - reflexivity.
  - reflexivity.
  - reflexivity.
Defined.

(** X3 (orphaned artifact).  When [addDoc] succeeds and [setDoc] rejects with
    the code [code], [saveLettering] throws the error chosen by the code, the
    new artifact stays in the pool and no document of [userGlyphs] is
    created or changed. *)
Theorem save_orphaned_artifact env w U fs c img code :
  identity (localStorage w) U →
  db w = Some fs →
  c ≠ "" →
  JS.startsWith img "data:image/" = true →
  addDoc_error env = None →
  setDoc_error env = Some code →
  ∃ fs',
    saveLettering env (JS.Str c) (JS.Str img) w
    = (Throw (remote_error code), mkWorld (localStorage w) (Some fs'))
    ∧ Firestore.globalGlyphs fs' !! autoId env
      = Some (Glyph.mk c img (serverTimestamp env) U)
    ∧ Firestore.userGlyphs fs' = Firestore.userGlyphs fs.
Proof.
  intros HU Hdb Hc Himg Hadd Hset.
  rewrite (saveLettering_remote _ _ U fs) by done. rewrite Hadd, Hset.
  eexists. split; [done|]. split; [|done]. simpl. apply lookup_insert_eq.
Qed.

Lemma save_orphaned_artifact_witness :
  ∃ fs',
    saveLettering (Demo.failing_env "g3" None (Some "unavailable")) (JS.Str "b")
      (JS.Str Sample.imgB) Demo.visitor
    = (Throw FirestoreUnavailable, mkWorld (Sample.device "u3") (Some fs'))
    ∧ Firestore.globalGlyphs fs' !! "g3"
      = Some (Glyph.mk "b" Sample.imgB 1733789240000%N "u3")
    ∧ Firestore.userGlyphs fs' = Firestore.userGlyphs Sample.pool.
Proof.
  apply (save_orphaned_artifact (Demo.failing_env "g3" None (Some "unavailable"))
           Demo.visitor "u3" Sample.pool "b" Sample.imgB "unavailable").
  - split; [reflexivity | discriminate].
  - reflexivity.
  - discriminate.
  - reflexivity.
  - reflexivity.
  - reflexivity.
Defined.

(** X4 (a rejected [addDoc] writes nothing).  When [addDoc] rejects,
    [saveLettering] leaves local storage and the remote store as they were,
    and throws: the permission message for the code [permission-denied], the
    connectivity message for [unavailable], the store's own error
    otherwise. *)
Theorem save_addDoc_rejected env w U fs c img code :
  identity (localStorage w) U →
  db w = Some fs →
  c ≠ "" →
  JS.startsWith img "data:image/" = true →
  addDoc_error env = Some code →
  ∃ e, saveLettering env (JS.Str c) (JS.Str img) w = (Throw e, w)
       ∧ (code = "permission-denied" → e = PermissionDenied)
       ∧ (code = "unavailable" → e = FirestoreUnavailable)
       ∧ (code ≠ "permission-denied" → code ≠ "unavailable" → e = Rethrown code).
Proof.
  intros HU Hdb Hc Himg Hadd.
  rewrite (saveLettering_remote _ _ U fs) by done. rewrite Hadd.
  exists (remote_error code). split; [done|]. unfold remote_error.
  split; [by intros ->|]. split; [by intros ->|].
  intros H1%String.eqb_neq H2%String.eqb_neq. by rewrite H1, H2.
Qed.

Lemma save_addDoc_rejected_witness :
  ∃ e, saveLettering (Demo.failing_env "g3" (Some "permission-denied") None)
         (JS.Str "b") (JS.Str Sample.imgB) Demo.visitor
       = (Throw e, Demo.visitor)
       ∧ ("permission-denied" = "permission-denied" → e = PermissionDenied)
       ∧ ("permission-denied" = "unavailable" → e = FirestoreUnavailable)
       ∧ ("permission-denied" ≠ "permission-denied" →
          "permission-denied" ≠ "unavailable" →
          e = Rethrown "permission-denied").
Proof.
  apply (save_addDoc_rejected (Demo.failing_env "g3" (Some "permission-denied") None)
           Demo.visitor "u3" Sample.pool "b" Sample.imgB "permission-denied").
  - split; [reflexivity | discriminate].
  - reflexivity.
  - discriminate.
  - reflexivity.
  - reflexivity.
Defined.

(** X5 (the pointer is merged into the user's document).  A successful remote
    save writes the field [charMap.<c>] of the document of identity [U] with
    the new artifact's identifier; every other field of that document and
    every document of another identity stay as they were. *)
Theorem save_pointer_merged env w U fs c img :
  identity (localStorage w) U →
  db w = Some fs →
  c ≠ "" →
  JS.startsWith img "data:image/" = true →
  addDoc_error env = None →
  setDoc_error env = None →
  ∃ fs' d,
    db (saveLettering env (JS.Str c) (JS.Str img) w).2 = Some fs'
    ∧ Firestore.userGlyphs fs' !! U = Some d
    ∧ d !! ("charMap." +:+ c) = Some (Firestore.FString (autoId env))
    ∧ (∀ f, f ≠ "charMap." +:+ c →
            d !! f = default ∅ (Firestore.userGlyphs fs !! U) !! f)
    ∧ (∀ V, V ≠ U → Firestore.userGlyphs fs' !! V = Firestore.userGlyphs fs !! V).
Proof.
  intros HU Hdb Hc Himg Hadd Hset.
  rewrite (saveLettering_remote _ _ U fs) by done. rewrite Hadd, Hset.
  unfold Firestore.setDoc_merge, Firestore.addDoc. simpl.
  eexists _, _. split; [done|]. split; [apply lookup_insert_eq|].
  split; [|split].
  - rewrite lookup_union_with, lookup_singleton_eq.
    by destruct (default ∅ (Firestore.userGlyphs fs !! U) !! ("charMap." +:+ c))
      as [[]|].
  - intros f Hf. rewrite lookup_union_with, lookup_singleton_ne by done.
    by destruct (default ∅ (Firestore.userGlyphs fs !! U) !! f).
  - intros V HV. by apply lookup_insert_ne.
Qed.

Lemma save_pointer_merged_witness :
  ∃ fs' d,
    db (saveLettering (Sample.env "g3" Sample.no_fault) (JS.Str "b")
          (JS.Str Sample.imgB)
          (mkWorld (Sample.device "u1") (Some Sample.pool))).2 = Some fs'
    ∧ Firestore.userGlyphs fs' !! "u1" = Some d
    ∧ d !! ("charMap." +:+ "b") = Some (Firestore.FString "g3")
    ∧ (∀ f, f ≠ "charMap." +:+ "b" →
            d !! f = default ∅ (Firestore.userGlyphs Sample.pool !! "u1") !! f)
    ∧ (∀ V, V ≠ "u1" →
            Firestore.userGlyphs fs' !! V = Firestore.userGlyphs Sample.pool !! V).
Proof.
  apply (save_pointer_merged (Sample.env "g3" Sample.no_fault)
           (mkWorld (Sample.device "u1") (Some Sample.pool)) "u1" Sample.pool
           "b" Sample.imgB).
  - split; [reflexivity | discriminate].
  - reflexivity.
  - discriminate.
  - reflexivity.
  - reflexivity.
  - reflexivity.
Defined.

(** X6 (local storage refuses the write).  Without Firebase, for an
    established identity and valid arguments, a local storage that refuses
    writes makes [saveLettering] throw its storage error; nothing is
    changed. *)
Theorem save_local_storage_full env w U c img :
  identity (localStorage w) U →
  db w = None →
  LocalStorage.writable (localStorage w) = false →
  c ≠ "" →
  JS.startsWith img "data:image/" = true →
  saveLettering env (JS.Str c) (JS.Str img) w = (Throw LocalStorageNotAvailable, w).
Proof.
  intros HU Hdb Hw Hc Himg. unfold saveLettering.
  destruct (validation_passed (JS.Str c) (JS.Str img)) as [-> ->];
    [by exists c | exists img; by destruct img |].
  rewrite (getUserId_established _ _ _ HU), Hdb.
  unfold LocalStorage.setItem. rewrite Hw. destruct w. by simplify_eq/=.
Qed.

Lemma save_local_storage_full_witness :
  saveLettering (Sample.env "g1" Sample.no_fault) (JS.Str "a")
    (JS.Str Sample.imgA) Demo.full_device
  = (Throw LocalStorageNotAvailable, Demo.full_device).
Proof.
  apply (save_local_storage_full _ _ "u").
  - split; [reflexivity | discriminate].
  - reflexivity.
  - reflexivity.
  - discriminate.
  - reflexivity.
Defined.

Section local_saves.

Lemma local_key_inj U c1 c2 : local_key U c1 = local_key U c2 → c1 = c2.
Proof.
  rewrite !local_key_prefix. apply (inj (String.app (local_prefix U))).
Qed.

(** The local branch of [saveLettering] for an established identity. *)
Lemma saveLettering_local_established env w U c img :
  identity (localStorage w) U →
  db w = None →
  LocalStorage.writable (localStorage w) = true →
  c ≠ "" →
  JS.startsWith img "data:image/" = true →
  saveLettering env (JS.Str c) (JS.Str img) w
  = (Ok (local_key U c),
     mkWorld (LocalStorage.mk
                (<[local_key U c := img]> (LocalStorage.items (localStorage w)))
                true) None).
Proof.
  intros HU Hdb Hw Hc Himg. unfold saveLettering.
  destruct (validation_passed (JS.Str c) (JS.Str img)) as [-> ->];
    [by exists c | exists img; by destruct img |].
  rewrite (getUserId_established _ _ _ HU), Hdb.
  unfold LocalStorage.setItem. by rewrite Hw.
Qed.

Lemma identity_insert_glyph st U c img :
  identity st U →
  identity (LocalStorage.mk (<[local_key U c := img]> (LocalStorage.items st)) true) U.
Proof.
  intros [Hitem HU]. split; [|done]. unfold LocalStorage.getItem. simpl.
  rewrite lookup_insert_ne by apply local_key_not_id_key. exact Hitem.
Qed.

End local_saves.

(** X7 (local saves accumulate).  Without Firebase two saves of one identity
    for different characters are both returned by [loadUserLetterings]: the
    second save keeps the first one's glyph. *)
Theorem local_saves_accumulate env1 env2 env3 w U a b img1 img2 :
  identity (localStorage w) U →
  db w = None →
  LocalStorage.writable (localStorage w) = true →
  a ≠ "" → b ≠ "" → a ≠ b →
  JS.startsWith img1 "data:image/" = true →
  JS.startsWith img2 "data:image/" = true →
  ∃ w2 m,
    (saveLettering env2 (JS.Str b) (JS.Str img2)
       (saveLettering env1 (JS.Str a) (JS.Str img1) w).2).2 = w2
    ∧ loadUserLetterings env3 w2 = (Ok m, w2)
    ∧ m !! a = Some img1
    ∧ m !! b = Some img2.
Proof.
  intros HU Hdb Hw Ha Hb Hab H1 H2.
  rewrite (saveLettering_local_established env1 w U a img1) by done. simpl.
  pose proof (identity_insert_glyph _ U a img1 HU) as HU1.
  rewrite (saveLettering_local_established env2 _ U b img2) by done. simpl.
  pose proof (identity_insert_glyph _ U b img2 HU1) as HU2.
  eexists _, _. split; [done|].
  split; [by apply (loadUserLetterings_established _ _ U)|].
  unfold userLetterings. simpl.
  split; apply scan_plain_lookup; rewrite <- local_key_prefix; simpl.
  - split; [|intros ->; discriminate H1].
    rewrite lookup_insert_ne; [apply lookup_insert_eq|].
    intros Heq%local_key_inj. congruence.
  - split; [apply lookup_insert_eq | intros ->; discriminate H2].
Qed.

Lemma local_saves_accumulate_witness :
  ∃ w2 m,
    (saveLettering (Sample.env "g2" Sample.no_fault) (JS.Str "c")
       (JS.Str Sample.imgB)
       (saveLettering (Sample.env "g1" Sample.no_fault) (JS.Str "b")
          (JS.Str Sample.imgA) Sample.offline_a).2).2 = w2
    ∧ loadUserLetterings (Sample.env "g3" Sample.no_fault) w2 = (Ok m, w2)
    ∧ m !! "b" = Some Sample.imgA
    ∧ m !! "c" = Some Sample.imgB.
Proof.
  apply (local_saves_accumulate _ _ _ Sample.offline_a "u").
  - split; [reflexivity | discriminate].
  - reflexivity.
  - reflexivity.
  - discriminate.
  - discriminate.
  - discriminate.
  - reflexivity.
  - reflexivity.
Defined.

(** X8 (the pool's images keep their marker).  If every artifact of the pool
    holds an image beginning with [data:image/], this is still so after
    [saveLettering], whatever its arguments and whatever fails. *)
Theorem save_keeps_pool_valid env char imageData w fs :
  db w = Some fs →
  pool_valid fs →
  ∃ fs', db (saveLettering env char imageData w).2 = Some fs' ∧ pool_valid fs'.
Proof.
  intros Hdb Hp.
  destruct (saveLettering env char imageData w) as [r w'] eqn:Hsave.
  destruct (saveLettering_remote_cases _ _ _ _ _ _ _ Hsave Hdb)
    as [Hw'|(U & [Hw'|Hw'])]; eexists; (split; [exact Hw'|]);
    eapply saveLettering_pool_valid; eauto.
Qed.

Lemma save_keeps_pool_valid_witness :
  ∃ fs', db (saveLettering (Sample.env "g1" Sample.no_fault) (JS.Str "a")
               (JS.Str Sample.imgA) Sample.online).2 = Some fs'
         ∧ pool_valid fs'.
Proof.
  apply (save_keeps_pool_valid _ _ _ Sample.online Firestore.empty).
  - reflexivity.
  - intros id g Hg. unfold Firestore.empty in Hg. simpl in Hg.
    by rewrite lookup_empty in Hg.
Defined.

Section shared_pool.

Lemma query_char_after_save fs c img id ts U U' data img' :
  Firestore.query_char c fs = [] →
  img' ∈ Firestore.query_char c
           (Firestore.setDoc_merge U' data
              (Firestore.addDoc id (Glyph.mk c img ts U) fs)) →
  img' = img.
Proof.
  intros Hnone (id' & g & Hg & Hc & <-)%elem_of_query_char.
  simpl in Hg. destruct (decide (id = id')) as [->|Hne].
  - rewrite lookup_insert_eq in Hg. by injection Hg as <-.
  - rewrite lookup_insert_ne in Hg by done.
    assert (Hin : Glyph.imageData g ∈ Firestore.query_char c fs).
    { apply elem_of_query_char. by exists id', g. }
    rewrite Hnone in Hin. by apply elem_of_nil in Hin.
Qed.

Lemma own_without_pointer env U st fs c :
  charMap fs U !! c = None →
  (ownLetterings env U (mkWorld st (Some fs))).1 !! c = None.
Proof.
  intros Hptr. apply eq_None_not_Some. intros [e He].
  apply fetchRemote_lookup in He as (_ & d & glyphId & g & Hd & Hc & _).
  unfold charMap in Hptr. rewrite Hd in Hptr. congruence.
Qed.

End shared_pool.

(** X9 (a saved glyph reaches the other visitors).  Identity [U1] saves a
    glyph for a character [c] for which the pool had no artifact.  A visitor
    [U2] of the same store without pointer for [c] who then resolves [[c]]
    gets exactly that image, with source [global]. *)
Theorem saved_glyph_is_shared env env' w1 U1 fs c img st2 U2 :
  identity (localStorage w1) U1 →
  db w1 = Some fs →
  c ≠ "" →
  JS.startsWith img "data:image/" = true →
  addDoc_error env = None →
  setDoc_error env = None →
  pool_valid fs →
  Firestore.query_char c fs = [] →
  identity st2 U2 →
  charMap fs U2 !! c = None →
  getDocs_error env' c = false →
  ∃ m w2,
    loadAllLetteringsForInteraction env' (JS.Arr [JS.Str c])
      (mkWorld st2 (db (saveLettering env (JS.Str c) (JS.Str img) w1).2))
    = (Ok m, w2)
    ∧ m !! c = Some (Lettering.mk img global).
Proof.
  intros HU1 Hdb Hc Himg Hadd Hset Hp Hnone HU2 Hptr Herr.
  rewrite (saveLettering_remote _ _ U1 fs) by done. rewrite Hadd, Hset. simpl.
  set (fs' := Firestore.setDoc_merge U1 _ _).
  eexists _, _. split; [by apply (loadAll_established _ _ _ U2)|]. simpl.
  destruct (resolved_global env' (Some fs')
              (ownLetterings env' U2 (mkWorld st2 (Some fs'))).1
              [JS.Str c] c fs' img) as (img' & Hm & Hin); try done.
  - apply elem_of_validChars. split; [by left | done].
  - apply own_without_pointer. unfold fs'. by rewrite setDoc_pointer_charMap.
  - apply elem_of_query_char. eexists (autoId env), _.
    split; [apply lookup_insert_eq | done].
  - intros img0 Hin0. apply (query_char_after_save _ _ _ _ _ _ _ _ _ Hnone) in Hin0.
    subst. intros ->. discriminate Himg.
  - rewrite Hm. do 2 f_equal.
    by apply (query_char_after_save _ _ _ _ _ _ _ _ _ Hnone) in Hin.
Qed.

Lemma saved_glyph_is_shared_witness :
  ∃ m w2,
    loadAllLetteringsForInteraction (Sample.env "g4" Sample.no_fault)
      (JS.Arr [JS.Str "b"])
      (mkWorld (Sample.device "u2")
         (db (saveLettering (Sample.env "g3" Sample.no_fault) (JS.Str "b")
                (JS.Str Sample.imgB) Demo.visitor).2))
    = (Ok m, w2)
    ∧ m !! "b" = Some (Lettering.mk Sample.imgB global).
Proof.
  apply (saved_glyph_is_shared _ _ Demo.visitor "u3" Sample.pool "b"
           Sample.imgB (Sample.device "u2") "u2").
  - split; [reflexivity | discriminate].
  - reflexivity.
  - discriminate.
  - reflexivity.
  - reflexivity.
  - reflexivity.
  - intros id g Hg%elem_of_map_to_list.
    let l := eval vm_compute in (map_to_list (Firestore.globalGlyphs Sample.pool)) in
    change (map_to_list (Firestore.globalGlyphs Sample.pool)) with l in Hg.
    apply elem_of_cons in Hg as [[= -> ->]|Hg]; [reflexivity|].
    apply elem_of_cons in Hg as [[= -> ->]|Hg]; [reflexivity|].
    by apply elem_of_nil in Hg.
  - vm_compute. reflexivity.
  - split; [reflexivity | discriminate].
  - vm_compute. reflexivity.
  - reflexivity.
Defined.

Section loaders.

Lemma ownLetterings_userLetterings env U w :
  (ownLetterings env U w).1
  = (λ img, Lettering.mk img user) <$> userLetterings env U w.
Proof.
  unfold ownLetterings, userLetterings. destruct (db w) as [fs|].
  - unfold fetchRemote.
    destruct (getDoc_error env USER_GLYPHS_COLLECTION U); simpl;
      [by rewrite fmap_empty|].
    destruct (Firestore.userGlyphs fs !! U) as [d|];
      [|by rewrite omap_empty, fmap_empty].
    apply map_eq. intros ch. rewrite lookup_fmap, !lookup_omap.
    destruct (Firestore.charMap_of d !! ch) as [glyphId|]; simpl; [|done].
    destruct (getDoc_error env GLOBAL_GLYPHS_COLLECTION glyphId); [done|].
    by destruct (Firestore.globalGlyphs fs !! glyphId).
  - unfold scanLocal. apply scan_fold_fst. simpl. by rewrite fmap_empty.
Qed.

(** Every lettering of the local scan comes with its storage key. *)
Lemma scan_fold_ptr U l acc :
  (∀ ch, is_Some (acc.1 !! ch) → acc.2 !! ch = Some (local_prefix U +:+ ch)) →
  ∀ ch, is_Some ((foldl (scan_step U) acc l).1 !! ch) →
        (foldl (scan_step U) acc l).2 !! ch = Some (local_prefix U +:+ ch).
Proof.
  revert acc. induction l as [|[k v] l IH]; intros acc Hacc; [done|].
  simpl. apply IH. intros ch.
  destruct (JS.nonempty k && JS.startsWith k (local_prefix U)) eqn:Hk;
    [|apply Hacc].
  apply andb_prop in Hk as [_ Hk].
  destruct (JS.nonempty v); [|apply Hacc]. simpl.
  destruct (decide (JS.replace k (local_prefix U) = ch)) as [<-|Hne].
  - intros _. rewrite lookup_insert_eq. f_equal.
    by apply strip_prefix_iff.
  - rewrite !lookup_insert_ne by done. apply Hacc.
Qed.

Lemma getUserId_frame env st r st' k :
  getUserId env st = (r, st') → k ≠ USER_ID_KEY →
  LocalStorage.items st' !! k = LocalStorage.items st !! k.
Proof.
  unfold getUserId, LocalStorage.setItem. intros Hget Hk.
  destruct (no_user_id _); [|by simplify_eq].
  destruct (LocalStorage.writable st); simplify_eq/=; [|done].
  by rewrite lookup_insert_ne.
Qed.

Lemma global_fold_offline env m queue :
  foldl (global_step env None) m queue = m.
Proof. revert m. induction queue as [|job queue IH]; intros m; [done|]. apply IH. Qed.

End loaders.

(** X10 (the two loaders agree).  Whenever [loadLetteringsForInteraction]
    returns, [loadUserLetterings] returns, for the same characters, the same
    images, and every entry of the former carries the source [user]. *)
Theorem loaders_agree env w own cm w' :
  loadLetteringsForInteraction env w = (Ok (own, cm), w') →
  loadUserLetterings env w = (Ok (Lettering.imageData <$> own), w')
  ∧ ∀ ch e, own !! ch = Some e → Lettering.source e = user.
Proof.
  unfold loadLetteringsForInteraction, loadUserLetterings.
  destruct (getUserId env (localStorage w)) as [[U|e] st]; [|done].
  intros [= Hown <-]. split.
  - do 2 f_equal.
    pose proof (ownLetterings_userLetterings env U (mkWorld st (db w))) as Heq.
    rewrite Hown in Heq. simpl in Heq. rewrite Heq.
    rewrite <- map_fmap_compose. symmetry. apply map_fmap_id.
  - intros ch e He. eapply (ownLetterings_source env U (mkWorld st (db w))).
    rewrite Hown. exact He.
Qed.

Lemma loaders_agree_witness :
  loadUserLetterings (Sample.env "g3" Sample.no_fault) Sample.offline_a
  = (Ok (Lettering.imageData <$> Sample.own_a), Sample.offline_a)
  ∧ ∀ ch e, Sample.own_a !! ch = Some e → Lettering.source e = user.
Proof.
  apply (loaders_agree _ _ _ {[ "a" := "local_glyph_u_a" ]}).
  vm_compute. reflexivity.
Defined.

(** X11 (every lettering has its pointer).  For an established identity the
    [charMap] returned by [loadLetteringsForInteraction] has a pointer for
    every character with a lettering: without Firebase the storage key
    [local_glyph_<U>_<ch>], with Firebase the identifier of the pool artifact
    whose image the lettering shows. *)
Theorem lettering_has_pointer env w U ch e :
  identity (localStorage w) U →
  (ownLetterings env U w).1 !! ch = Some e →
  ∃ ptr,
    (ownLetterings env U w).2 !! ch = Some ptr
    ∧ loadLetteringsForInteraction env w = (Ok (ownLetterings env U w), w)
    ∧ (db w = None → ptr = local_key U ch)
    ∧ (∀ fs, db w = Some fs →
             ∃ g, Firestore.globalGlyphs fs !! ptr = Some g
                  ∧ Glyph.imageData g = Lettering.imageData e).
Proof.
  intros HU He.
  pose proof (loadLetteringsForInteraction_established env w U HU) as Hload.
  unfold ownLetterings in *. destruct (db w) as [fs|].
  - pose proof He as (Herr & d & glyphId & g & Hd & Hc & _ & Hg & ->)%fetchRemote_lookup.
    exists glyphId. split.
    { unfold fetchRemote. rewrite Herr, Hd. exact Hc. }
    split; [done|]. split; [done|].
    intros fs' [= <-]. by exists g.
  - exists (local_key U ch). split.
    { rewrite local_key_prefix. apply scan_fold_ptr; [|by eexists].
      simpl. intros ch' [? H]. by rewrite lookup_empty in H. }
    split; [done|]. split; [done|]. done.
Qed.

Lemma lettering_has_pointer_witness :
  ∃ ptr,
    (ownLetterings (Sample.env "g3" Sample.no_fault) "u1"
       (mkWorld (Sample.device "u1") (Some Sample.pool))).2 !! "a" = Some ptr
    ∧ loadLetteringsForInteraction (Sample.env "g3" Sample.no_fault)
        (mkWorld (Sample.device "u1") (Some Sample.pool))
      = (Ok (ownLetterings (Sample.env "g3" Sample.no_fault) "u1"
               (mkWorld (Sample.device "u1") (Some Sample.pool))),
         mkWorld (Sample.device "u1") (Some Sample.pool))
    ∧ (db (mkWorld (Sample.device "u1") (Some Sample.pool)) = None →
       ptr = local_key "u1" "a")
    ∧ (∀ fs, db (mkWorld (Sample.device "u1") (Some Sample.pool)) = Some fs →
             ∃ g, Firestore.globalGlyphs fs !! ptr = Some g
                  ∧ Glyph.imageData g
                    = Lettering.imageData (Lettering.mk Sample.imgA user)).
Proof.
  apply (lettering_has_pointer _ _ "u1" "a").
  - split; [reflexivity | discriminate].
  - vm_compute. reflexivity.
Defined.

(** X12 (broken pointers and failed reads are skipped).  With Firebase, for
    an established identity [U], [loadLetteringsForInteraction] returns a
    lettering for [ch] exactly when the user's document could be read, its
    [charMap] points [ch] at an identifier, the read of that artifact did not
    fail and the artifact exists; the lettering then shows that artifact's
    image.  A pointer to a missing artifact, or a failed read, drops that
    character only. *)
Theorem remote_own_letterings env w U fs ch e :
  identity (localStorage w) U →
  db w = Some fs →
  ∃ own cm,
    loadLetteringsForInteraction env w = (Ok (own, cm), w)
    ∧ (own !! ch = Some e
       ↔ getDoc_error env USER_GLYPHS_COLLECTION U = false
         ∧ ∃ glyphId g,
             charMap fs U !! ch = Some glyphId
             ∧ getDoc_error env GLOBAL_GLYPHS_COLLECTION glyphId = false
             ∧ Firestore.globalGlyphs fs !! glyphId = Some g
             ∧ e = Lettering.mk (Glyph.imageData g) user).
Proof.
  intros HU Hdb.
  exists (ownLetterings env U w).1, (ownLetterings env U w).2. split.
  { rewrite (loadLetteringsForInteraction_established _ _ _ HU).
    by destruct (ownLetterings env U w). }
  unfold ownLetterings, charMap. rewrite Hdb, fetchRemote_lookup.
  split.
  - intros (Herr & d & glyphId & g & Hd & Hrest). split; [done|].
    exists glyphId, g. by rewrite Hd.
  - intros (Herr & glyphId & g & Hptr & Hrest). split; [done|].
    destruct (Firestore.userGlyphs fs !! U) as [d|];
      [|by rewrite lookup_empty in Hptr].
    by exists d, glyphId, g.
Qed.

Lemma remote_own_letterings_witness :
  ∃ own cm,
    loadLetteringsForInteraction (Sample.env "g3" Sample.no_fault)
      (mkWorld (Sample.device "u1") (Some Sample.pool))
    = (Ok (own, cm), mkWorld (Sample.device "u1") (Some Sample.pool))
    ∧ (own !! "a" = Some (Lettering.mk Sample.imgA user)
       ↔ getDoc_error (Sample.env "g3" Sample.no_fault)
           USER_GLYPHS_COLLECTION "u1" = false
         ∧ ∃ glyphId g,
             charMap Sample.pool "u1" !! "a" = Some glyphId
             ∧ getDoc_error (Sample.env "g3" Sample.no_fault)
                 GLOBAL_GLYPHS_COLLECTION glyphId = false
             ∧ Firestore.globalGlyphs Sample.pool !! glyphId = Some g
             ∧ Lettering.mk Sample.imgA user
               = Lettering.mk (Glyph.imageData g) user).
Proof.
  apply (remote_own_letterings _ _ "u1" Sample.pool).
  - split; [reflexivity | discriminate].
  - reflexivity.
Defined.

Lemma global_glyph_matches_aux env i c db img :
  getRandomGlobalGlyph env i c db = Some img →
  ∃ fs id g, db = Some fs
             ∧ Firestore.globalGlyphs fs !! id = Some g
             ∧ Glyph.char g = c
             ∧ Glyph.imageData g = img.
Proof.
  intros (fs & -> & (id & g & ?)%elem_of_query_char)%getRandomGlobalGlyph_Some.
  by exists fs, id, g.
Qed.

(** X13 (the global lookup answers for the character asked).  Whatever
    [getRandomGlobalGlyph] returns is the image of a pool artifact whose
    character is exactly the one asked for; without Firebase it returns
    nothing. *)
Theorem global_glyph_matches env i c db img :
  getRandomGlobalGlyph env i c db = Some img →
  ∃ fs id g, db = Some fs
             ∧ Firestore.globalGlyphs fs !! id = Some g
             ∧ Glyph.char g = c
             ∧ Glyph.imageData g = img.
Proof. apply global_glyph_matches_aux. Qed.

Lemma global_glyph_matches_witness :
  ∃ fs id g, Some Sample.pool = Some fs
             ∧ Firestore.globalGlyphs fs !! id = Some g
             ∧ Glyph.char g = "a"
             ∧ Glyph.imageData g = Sample.imgB.
Proof.
  apply (global_glyph_matches (Sample.env "g3" Sample.no_fault) 0 "a").
  vm_compute. reflexivity.
Defined.

(** X14 (the random index stays in range).  With a reachable store, a query
    that succeeds and at least one artifact for the character,
    [getRandomGlobalGlyph] returns an image: the index
    [Math.floor(Math.random() * glyphs.length)] never leaves the array. *)
Theorem global_glyph_available env i c fs id g :
  getDocs_error env c = false →
  Firestore.globalGlyphs fs !! id = Some g →
  Glyph.char g = c →
  is_Some (getRandomGlobalGlyph env i c (Some fs)).
Proof.
  intros Herr Hg Hc.
  destruct (getRandomGlobalGlyph_found env i c fs (Glyph.imageData g) Herr)
    as (img & -> & _); [|by eexists].
  apply elem_of_query_char. by exists id, g.
Qed.

Lemma global_glyph_available_witness :
  is_Some (getRandomGlobalGlyph (Sample.env "g3" Sample.no_fault) 5 "a"
             (Some Sample.pool)).
Proof.
  apply (global_glyph_available _ _ _ _ "g2" (Glyph.mk "a" Sample.imgB 2%N "u2")).
  - reflexivity.
  - vm_compute. reflexivity.
  - reflexivity.
Defined.

(** X15 (without Firebase only own letterings).  Without Firebase the
    resolution returns exactly the letterings of
    [loadLetteringsForInteraction], whatever characters are required. *)
Theorem resolve_offline env (requiredChars : list JS.value) w U :
  identity (localStorage w) U →
  db w = None →
  loadAllLetteringsForInteraction env (JS.Arr requiredChars) w
  = (Ok (ownLetterings env U w).1, w)
  ∧ loadLetteringsForInteraction env w = (Ok (ownLetterings env U w), w).
Proof.
  intros HU Hdb. split; [|by apply loadLetteringsForInteraction_established].
  rewrite (loadAll_established _ _ _ _ HU). unfold resolved.
  by rewrite Hdb, global_fold_offline.
Qed.

Lemma resolve_offline_witness :
  loadAllLetteringsForInteraction (Sample.env "g3" Sample.no_fault)
    (JS.Arr [JS.Str "a"; JS.Str "b"]) Sample.offline_a
  = (Ok (ownLetterings (Sample.env "g3" Sample.no_fault) "u" Sample.offline_a).1,
     Sample.offline_a)
  ∧ loadLetteringsForInteraction (Sample.env "g3" Sample.no_fault) Sample.offline_a
    = (Ok (ownLetterings (Sample.env "g3" Sample.no_fault) "u" Sample.offline_a),
       Sample.offline_a).
Proof.
  apply resolve_offline; [split; [reflexivity | discriminate] | reflexivity].
Defined.

(** X16 (the resolution only reads).  Whatever its argument and its outcome,
    [loadAllLetteringsForInteraction] leaves the remote store as it was and
    changes no key of local storage other than the identity's. *)
Theorem resolve_reads_only env requiredChars w k :
  k ≠ USER_ID_KEY →
  db (loadAllLetteringsForInteraction env requiredChars w).2 = db w
  ∧ LocalStorage.items
      (localStorage (loadAllLetteringsForInteraction env requiredChars w).2) !! k
    = LocalStorage.items (localStorage w) !! k.
Proof.
  intros Hk. unfold loadAllLetteringsForInteraction, loadLetteringsForInteraction.
  destruct requiredChars; try done.
  destruct (getUserId env (localStorage w)) as [[U|e] st] eqn:Hget; simpl.
  - destruct (ownLetterings env U (mkWorld st (db w))). simpl.
    split; [done|]. by eapply getUserId_frame.
  - split; [done|]. by eapply getUserId_frame.
Qed.

Lemma resolve_reads_only_witness :
  db (loadAllLetteringsForInteraction (Sample.env "g3" Sample.no_fault)
        (JS.Arr [JS.Str "a"]) (mkWorld (LocalStorage.mk ∅ true) (Some Sample.pool))).2
  = db (mkWorld (LocalStorage.mk ∅ true) (Some Sample.pool))
  ∧ LocalStorage.items
      (localStorage
         (loadAllLetteringsForInteraction (Sample.env "g3" Sample.no_fault)
            (JS.Arr [JS.Str "a"])
            (mkWorld (LocalStorage.mk ∅ true) (Some Sample.pool))).2)
      !! "local_glyph_u_a"
    = LocalStorage.items
        (localStorage (mkWorld (LocalStorage.mk ∅ true) (Some Sample.pool)))
        !! "local_glyph_u_a".
Proof. apply resolve_reads_only. discriminate. Defined.

(** X17 (global entries come from the pool).  In the result of the
    resolution an entry with source [global] belongs to a character of the
    validated working set for which the caller has no own lettering, and its
    image is the non-empty image of a pool artifact for exactly that
    character. *)
Theorem global_entry_from_pool env (requiredChars : list JS.value) w U m w' ch e :
  identity (localStorage w) U →
  loadAllLetteringsForInteraction env (JS.Arr requiredChars) w = (Ok m, w') →
  m !! ch = Some e →
  Lettering.source e = global →
  ch ∈ validChars requiredChars
  ∧ (ownLetterings env U w).1 !! ch = None
  ∧ Lettering.imageData e ≠ ""
  ∧ ∃ fs id g, db w = Some fs
               ∧ Firestore.globalGlyphs fs !! id = Some g
               ∧ Glyph.char g = ch
               ∧ Glyph.imageData g = Lettering.imageData e.
Proof.
  intros HU. rewrite (loadAll_established _ _ _ _ HU). intros [= <- <-] He Hsrc.
  unfold resolved in He.
  apply global_fold_entries in He as [Hown|(i & img & Hjob & Hg & Himg & ->)].
  { apply ownLetterings_source in Hown. congruence. }
  apply elem_of_jobs, elem_of_missingChars in Hjob as [Hc Hown].
  split; [done|]. split; [done|]. split; [done|].
  by apply global_glyph_matches_aux in Hg.
Qed.

Lemma global_entry_from_pool_witness :
  "a" ∈ validChars [JS.Str "a"]
  ∧ (ownLetterings (Sample.env "g3" Sample.no_fault) "u3" Demo.visitor).1 !! "a"
    = None
  ∧ Lettering.imageData (Lettering.mk Sample.imgB global) ≠ ""
  ∧ ∃ fs id g, db Demo.visitor = Some fs
               ∧ Firestore.globalGlyphs fs !! id = Some g
               ∧ Glyph.char g = "a"
               ∧ Glyph.imageData g
                 = Lettering.imageData (Lettering.mk Sample.imgB global).
Proof.
  apply (global_entry_from_pool (Sample.env "g3" Sample.no_fault) [JS.Str "a"]
           Demo.visitor "u3" {[ "a" := Lettering.mk Sample.imgB global ]}
           Demo.visitor "a").
  - split; [reflexivity | discriminate].
  - vm_compute. reflexivity.
  - vm_compute. reflexivity.
  - reflexivity.
Defined.

(** X18 (no identity and no writable storage).  On a device without stored
    identity whose local storage refuses writes, [getUserId] throws the
    storage's exception instead of returning a token, and so do
    [saveLettering] for valid arguments, [loadLetteringsForInteraction],
    [loadUserLetterings] and the resolution of an array; nothing is
    changed. *)
Theorem no_identity_no_storage env w c img (requiredChars : list JS.value) :
  no_user_id (LocalStorage.getItem USER_ID_KEY (localStorage w)) = true →
  LocalStorage.writable (localStorage w) = false →
  c ≠ "" →
  JS.startsWith img "data:image/" = true →
  getUserId env (localStorage w) = (Throw QuotaExceeded, localStorage w)
  ∧ saveLettering env (JS.Str c) (JS.Str img) w = (Throw QuotaExceeded, w)
  ∧ loadLetteringsForInteraction env w = (Throw QuotaExceeded, w)
  ∧ loadUserLetterings env w = (Throw QuotaExceeded, w)
  ∧ loadAllLetteringsForInteraction env (JS.Arr requiredChars) w
    = (Throw QuotaExceeded, w).
Proof.
  intros Hno Hw Hc Himg.
  assert (Hget : getUserId env (localStorage w)
                 = (Throw QuotaExceeded, localStorage w)).
  { unfold getUserId, LocalStorage.setItem. by rewrite Hno, Hw. }
  split; [done|].
  unfold saveLettering, loadAllLetteringsForInteraction,
    loadLetteringsForInteraction, loadUserLetterings.
  destruct (validation_passed (JS.Str c) (JS.Str img)) as [-> ->];
    [by exists c | exists img; by destruct img |].
  rewrite Hget. by destruct w.
Qed.

Lemma no_identity_no_storage_witness :
  getUserId (Sample.env "g1" Sample.no_fault) (LocalStorage.mk ∅ false)
  = (Throw QuotaExceeded, LocalStorage.mk ∅ false)
  ∧ saveLettering (Sample.env "g1" Sample.no_fault) (JS.Str "a")
      (JS.Str Sample.imgA) (mkWorld (LocalStorage.mk ∅ false) None)
    = (Throw QuotaExceeded, mkWorld (LocalStorage.mk ∅ false) None)
  ∧ loadLetteringsForInteraction (Sample.env "g1" Sample.no_fault)
      (mkWorld (LocalStorage.mk ∅ false) None)
    = (Throw QuotaExceeded, mkWorld (LocalStorage.mk ∅ false) None)
  ∧ loadUserLetterings (Sample.env "g1" Sample.no_fault)
      (mkWorld (LocalStorage.mk ∅ false) None)
    = (Throw QuotaExceeded, mkWorld (LocalStorage.mk ∅ false) None)
  ∧ loadAllLetteringsForInteraction (Sample.env "g1" Sample.no_fault)
      (JS.Arr [JS.Str "a"]) (mkWorld (LocalStorage.mk ∅ false) None)
    = (Throw QuotaExceeded, mkWorld (LocalStorage.mk ∅ false) None).
Proof.
  apply (no_identity_no_storage _ (mkWorld (LocalStorage.mk ∅ false) None));
    [reflexivity | reflexivity | discriminate | reflexivity].
Defined.

(* ===================================================================== *)
(** * Properties of [lettering.js] *)
(* ===================================================================== *)

Section unique_characters.

Lemma set_add_NoDup chars c : NoDup chars → NoDup (set_add chars c).
Proof.
  intros Hnd. unfold set_add. case_decide; [done|].
  apply NoDup_app. split; [done|]. split; [|apply NoDup_singleton].
  intros x Hx ->%list_elem_of_singleton. done.
Qed.

Lemma elem_of_set_add chars c x : x ∈ set_add chars c ↔ x ∈ chars ∨ x = c.
Proof.
  unfold set_add. case_decide; [|set_solver].
  split; [by left|]. intros [?| ->]; done.
Qed.

Lemma collect_NoDup l chars :
  NoDup chars →
  NoDup (foldl (λ chars a, if alphabetic a then set_add chars (String a "")
                           else chars) chars l).
Proof.
  revert chars. induction l as [|a l IH]; intros chars Hnd; [done|].
  simpl. apply IH. destruct (alphabetic a); [by apply set_add_NoDup | done].
Qed.

Lemma elem_of_collect l chars x :
  x ∈ foldl (λ chars a, if alphabetic a then set_add chars (String a "")
                        else chars) chars l
  ↔ x ∈ chars ∨ ∃ a, a ∈ l ∧ alphabetic a = true ∧ x = String a "".
Proof.
  revert chars. induction l as [|a l IH]; intros chars; simpl.
  { split; [by left|]. intros [?|(a & Ha & _)]; [done|]. by apply elem_of_nil in Ha. }
  rewrite IH. destruct (alphabetic a) eqn:Ha.
  - rewrite elem_of_set_add. split.
    + intros [[?| ->]|(b & Hb & ?)]; [by left | |].
      * right. exists a. split; [by left | done].
      * right. exists b. split; [by right | done].
    + intros [?|(b & [->|Hb]%elem_of_cons & Hal & ->)];
        [by left; left | by left; right |].
      right. by exists b.
  - split.
    + intros [?|(b & Hb & ?)]; [by left|]. right. exists b. split; [by right | done].
    + intros [?|(b & [->|Hb]%elem_of_cons & Hal & ->)]; [by left | congruence |].
      right. by exists b.
Qed.

End unique_characters.

(** X19 (the character list).  [extractUniqueCharacters] returns the
    one-character strings of the letters of the sentence (code units 65-90,
    97-122 and 192-255), each once, sorted by code unit. *)
Theorem extractUniqueCharacters_spec (sentence : string) :
  StronglySorted String.le (extractUniqueCharacters sentence)
  ∧ NoDup (extractUniqueCharacters sentence)
  ∧ ∀ c, c ∈ extractUniqueCharacters sentence
         ↔ ∃ a, a ∈ String.list_ascii_of_string sentence
                ∧ alphabetic a = true ∧ c = String a "".
Proof.
  unfold extractUniqueCharacters. split; [|split].
  - apply StronglySorted_merge_sort; apply _.
  - rewrite merge_sort_Permutation. apply collect_NoDup, NoDup_nil_2.
  - intros c. rewrite merge_sort_Permutation, elem_of_collect.
    split; [|by right]. intros [H|H]; [by apply elem_of_nil in H | done].
Qed.

Section next_character.
Variable letterings : gmap string string.

Lemma find_first (l : list string) c :
  List.find (unfinished letterings) l = Some c →
  ∃ i, l !! i = Some c ∧ unfinished letterings c = true
       ∧ ∀ j c', j < i → l !! j = Some c' → unfinished letterings c' = false.
Proof.
  induction l as [|x l IH]; [done|]. simpl.
  destruct (unfinished letterings x) eqn:Hx.
  - intros [= <-]. exists 0. split; [done|]. split; [done|]. lia.
  - intros (i & Hi & Hc & Hbefore)%IH. exists (S i).
    split; [done|]. split; [done|].
    intros [|j] c' Hj Hc'; simpl in Hc'; [by simplify_eq|].
    apply (Hbefore j); [lia | done].
Qed.

Lemma find_nothing (l : list string) :
  List.find (unfinished letterings) l = None
  ↔ ∀ i c, l !! i = Some c → unfinished letterings c = false.
Proof.
  split.
  - intros Hnone i c Hi. eapply find_none; [done|].
    apply list_elem_of_In. by eapply list_elem_of_lookup_2.
  - intros Hall. destruct (List.find _ l) as [c|] eqn:Hf; [|done].
    apply find_first in Hf as (i & Hi & Hc & _).
    by rewrite (Hall i c Hi) in Hc.
Qed.

Lemma indexOf_from_spec (l : list string) c k :
  (indexOf_from l c k = (-1)%Z ∧ c ∉ l)
  ∨ ∃ i, indexOf_from l c k = Z.of_nat (k + i) ∧ l !! i = Some c.
Proof.
  revert k. induction l as [|x l IH]; intros k; simpl.
  { left. split; [done|]. apply not_elem_of_nil. }
  destruct (String.eqb x c) eqn:Hx.
  - apply String.eqb_eq in Hx as ->. right. exists 0.
    split; [f_equal; lia | done].
  - apply String.eqb_neq in Hx.
    destruct (IH (S k)) as [[-> Hc]|(i & -> & Hi)].
    + left. split; [done|]. by intros [->|?]%elem_of_cons.
    + right. exists (S i). split; [f_equal; lia | done].
Qed.

Lemma indexOf_spec (l : list string) cur :
  (indexOf l cur = (-1)%Z ∧ ∀ c, cur = Some c → c ∉ l)
  ∨ ∃ i c, indexOf l cur = Z.of_nat i ∧ cur = Some c ∧ l !! i = Some c.
Proof.
  destruct cur as [c|]; simpl; [|by left].
  destruct (indexOf_from_spec l c 0) as [[-> Hc]|(i & -> & Hi)].
  - left. split; [done|]. by intros ? [= <-].
  - right. by exists i, c.
Qed.

Lemma indexOf_ge (l : list string) cur : (-1 ≤ indexOf l cur)%Z.
Proof.
  destruct (indexOf_spec l cur) as [[-> _]|(i & c & -> & _)]; lia.
Qed.

End next_character.

Section next_character_facts.

Lemma next_unfinished_first (u : list string) cur L c :
  findNextUnfinishedCharacter u cur L = Some c →
  ∃ i, u !! i = Some c ∧ unfinished L c = true
       ∧ next_in_turn u L (indexOf u cur) i.
Proof.
  unfold findNextUnfinishedCharacter, next_in_turn.
  pose proof (indexOf_ge u cur) as Hge.
  set (ci := indexOf u cur) in *.
  destruct (List.find (unfinished L) (drop (Z.to_nat (ci + 1)) u)) as [c1|] eqn:H1.
  - intros [= ->]. apply find_first in H1 as (i & Hi & Hc & Hbefore).
    rewrite lookup_drop in Hi. exists (Z.to_nat (ci + 1) + i).
    split; [done|]. split; [done|].
    left. split; [lia|]. intros j c' Hj1 Hj2 Hj.
    apply (Hbefore (j - Z.to_nat (ci + 1))); [lia|].
    rewrite lookup_drop. rewrite <- Hj. f_equal. lia.
  - intros (i & Hi & Hc & Hbefore)%find_first.
    pose proof (lookup_lt_Some _ _ _ Hi) as Hlt. rewrite length_take in Hlt.
    rewrite lookup_take_lt in Hi by lia.
    exists i. split; [done|]. split; [done|].
    right. split; [lia|]. split.
    + intros j c' Hj1 Hj.
      apply (proj1 (find_nothing L _) H1 (j - Z.to_nat (ci + 1)) c').
      rewrite lookup_drop. rewrite <- Hj. f_equal. lia.
    + intros j c' Hj1 Hj. apply (Hbefore j); [done|].
      rewrite lookup_take_lt by lia. done.
Qed.

Lemma next_unfinished_nothing (u : list string) cur L :
  findNextUnfinishedCharacter u cur L = None
  ↔ ∀ i c, u !! i = Some c → Z.of_nat i ≠ indexOf u cur → unfinished L c = false.
Proof.
  unfold findNextUnfinishedCharacter.
  pose proof (indexOf_ge u cur) as Hge.
  set (ci := indexOf u cur) in *. split.
  - destruct (List.find (unfinished L) (drop (Z.to_nat (ci + 1)) u)) eqn:H1;
      [done|].
    intros H2 i c Hi Hne.
    destruct (decide (ci < Z.of_nat i)%Z) as [Hlt|Hnlt].
    + apply (proj1 (find_nothing L _) H1 (i - Z.to_nat (ci + 1)) c).
      rewrite lookup_drop. rewrite <- Hi. f_equal. lia.
    + apply (proj1 (find_nothing L _) H2 i c).
      rewrite lookup_take_lt by lia. exact Hi.
  - intros Hall.
    assert (H1 : List.find (unfinished L) (drop (Z.to_nat (ci + 1)) u) = None).
    { apply find_nothing. intros i c Hi. rewrite lookup_drop in Hi.
      apply (Hall _ _ Hi). lia. }
    rewrite H1. apply find_nothing. intros i c Hi.
    pose proof (lookup_lt_Some _ _ _ Hi) as Hlt. rewrite length_take in Hlt.
    rewrite lookup_take_lt in Hi by lia. apply (Hall _ _ Hi). lia.
Qed.

End next_character_facts.

(** X20 (the next unfinished character).  A character returned by
    [findNextUnfinishedCharacter] stands in [uniqueCharacters] at an index
    other than the current one and has no lettering yet.  It is the first
    such character after the current index or, when all later ones are done,
    the first one before it; in a list without repetitions it is not the
    current character. *)
Theorem next_unfinished_sound (u : list string) cur L c :
  findNextUnfinishedCharacter u cur L = Some c →
  ∃ i,
    u !! i = Some c
    ∧ unfinished L c = true
    ∧ next_in_turn u L (indexOf u cur) i
    ∧ (NoDup u → cur ≠ Some c).
Proof.
  intros (i & Hi & Hc & Hturn)%next_unfinished_first.
  exists i. split; [done|]. split; [done|]. split; [done|].
  intros Hnd ->.
  destruct (indexOf_spec u (Some c)) as [[_ Hnot]|(i' & c' & Hci & [= <-] & Hi')].
  - apply (Hnot c eq_refl). by eapply list_elem_of_lookup_2.
  - assert (i = i') as -> by (by eapply NoDup_lookup).
    rewrite Hci in Hturn. destruct Hturn as [[? _]|[? _]]; lia.
Qed.

Lemma next_unfinished_sound_witness :
  ∃ i,
    ["a"; "b"; "c"] !! i = Some "a"
    ∧ unfinished {[ "c" := Sample.imgA ]} "a" = true
    ∧ next_in_turn ["a"; "b"; "c"] {[ "c" := Sample.imgA ]}
        (indexOf ["a"; "b"; "c"] (Some "c")) i
    ∧ (NoDup ["a"; "b"; "c"] → Some "c" ≠ Some "a").
Proof.
  apply (next_unfinished_sound ["a"; "b"; "c"] (Some "c") {[ "c" := Sample.imgA ]} "a").
  vm_compute. reflexivity.
Defined.

(** X21 (everything else is done).  [findNextUnfinishedCharacter] returns
    [null] exactly when every character of [uniqueCharacters] at an index
    other than the current one has a lettering. *)
Theorem next_unfinished_none (u : list string) cur L :
  findNextUnfinishedCharacter u cur L = None
  ↔ ∀ i c, u !! i = Some c → Z.of_nat i ≠ indexOf u cur → unfinished L c = false.
Proof. apply next_unfinished_nothing. Qed.

Section canvas_scan.

Lemma hasDrawing_bounded n : ∀ pixels : list N,
  length pixels ≤ n →
  hasDrawing pixels = true
  ↔ ∃ k alpha, pixels !! (4 * k + 3) = Some alpha ∧ (0 < alpha)%N.
Proof.
  induction n as [|n IH]; intros pixels Hn.
  { destruct pixels; [|simpl in Hn; lia]. simpl.
    split; [done|]. by intros (k & alpha & ? & _). }
  destruct pixels as [|r [|g [|b [|alpha rest]]]];
    try (split; [done|]; intros (k & a & Hk%lookup_lt_Some & _);
         simpl in Hk; lia).
  change (hasDrawing (r :: g :: b :: alpha :: rest))
    with ((0 <? alpha)%N || hasDrawing rest).
  rewrite orb_true_iff, N.ltb_lt, (IH rest) by (simpl in Hn; lia).
  split.
  - intros [Ha|(k & a & Hk & Ha)].
    + exists 0, alpha. done.
    + exists (S k), a. split; [|done].
      replace (4 * S k + 3) with (4 + (4 * k + 3)) by lia. exact Hk.
  - intros ([|k] & a & Hk & Ha).
    + left. simpl in Hk. by simplify_eq.
    + right. exists k, a. split; [|done].
      replace (4 * S k + 3) with (4 + (4 * k + 3)) in Hk by lia. exact Hk.
Qed.

End canvas_scan.

(** X22 (the empty-canvas test).  The loop of [saveAndNext] over the pixel
    data finds a drawing exactly when some pixel, that is some index
    [4k + 3] of the data, has an alpha value above 0; trailing bytes that do
    not make a whole pixel are not looked at. *)
Theorem hasDrawing_spec (pixels : list N) :
  hasDrawing pixels = true
  ↔ ∃ k alpha, pixels !! (4 * k + 3) = Some alpha ∧ (0 < alpha)%N.
Proof. by apply (hasDrawing_bounded (length pixels)). Qed.

(** X23 (nothing to save).  When no character is selected, or when the canvas
    is blank and the user declines to save it, [saveAndNext] changes neither
    the page nor any store; only the first case shows an alert. *)
Theorem saveAndNext_nothing_to_do env cv p w :
  from_option JS.nonempty false (currentCharacter p) = false
  ∨ (from_option JS.nonempty false (currentCharacter p) = true
     ∧ hasDrawing (pixels cv) = false ∧ confirmEmpty cv = false) →
  ∃ alerts, saveAndNext env cv p w = (alerts, p, w)
            ∧ (alerts = [PleaseSelect]
               ↔ from_option JS.nonempty false (currentCharacter p) = false)
            ∧ (alerts = []
               ↔ from_option JS.nonempty false (currentCharacter p) = true).
Proof.
  unfold saveAndNext. intros [Hsel|(Hsel & Hblank & Hno)]; rewrite Hsel; simpl.
  - exists [PleaseSelect]. done.
  - rewrite Hblank, Hno. simpl. exists []. done.
Qed.

Lemma saveAndNext_nothing_to_do_witness :
  ∃ alerts,
    saveAndNext (Sample.env "g1" Sample.no_fault)
      (mkCanvas [0; 0; 0; 0]%N Sample.imgA false (λ _, false) true)
      Demo.page Sample.offline_a
    = (alerts, Demo.page, Sample.offline_a)
    ∧ (alerts = [PleaseSelect]
       ↔ from_option JS.nonempty false (currentCharacter Demo.page) = false)
    ∧ (alerts = []
       ↔ from_option JS.nonempty false (currentCharacter Demo.page) = true).
Proof.
  apply saveAndNext_nothing_to_do. right.
  split; [reflexivity|]. split; reflexivity.
Defined.

Section save_and_next.

(** [saveAndNext] once a character is selected and the canvas is to be
    saved. *)
Lemma saveAndNext_proceeds env cv p w cur :
  currentCharacter p = Some cur →
  cur ≠ "" →
  hasDrawing (pixels cv) = true ∨ confirmEmpty cv = true →
  saveAndNext env cv p w
  = let letterings' := <[cur := toDataURL cv]> (letterings p) in
    match saveLettering env (JS.Str cur) (JS.Str (toDataURL cv)) w with
    | (Ok _, w') =>
        match findNextUnfinishedCharacter (uniqueCharacters p) (Some cur)
                letterings' with
        | Some nextChar =>
            if JS.nonempty nextChar
            then ([], mkPage (uniqueCharacters p) (Some nextChar) letterings', w')
            else ([AllCompleted],
                  mkPage (uniqueCharacters p) (Some cur) letterings', w')
        | None =>
            ([AllCompleted], mkPage (uniqueCharacters p) (Some cur) letterings', w')
        end
    | (Throw e, w') =>
        ([save_alert cv e], mkPage (uniqueCharacters p) (Some cur) letterings', w')
    end.
Proof.
  intros Hcur Hne Hdraw. unfold saveAndNext. rewrite Hcur. simpl.
  apply nonempty_true in Hne. rewrite Hne. simpl.
  assert (negb (hasDrawing (pixels cv)) && negb (confirmEmpty cv) = false) as ->.
  { destruct Hdraw as [-> | ->]; [done|]. by rewrite andb_false_r. }
  done.
Qed.

End save_and_next.

(** X24 (the drawing is kept when the save fails).  When [saveAndNext] goes
    ahead, the page records the canvas image for the selected character
    before the save is attempted; if [saveLettering] throws, the selection
    stays, one alert chosen from the error is shown, the page keeps the image
    as that character's lettering, and the stores are as [saveLettering]
    left them. *)
Theorem saveAndNext_save_fails env cv p w cur e w' :
  currentCharacter p = Some cur →
  cur ≠ "" →
  hasDrawing (pixels cv) = true ∨ confirmEmpty cv = true →
  saveLettering env (JS.Str cur) (JS.Str (toDataURL cv)) w = (Throw e, w') →
  saveAndNext env cv p w
  = ([save_alert cv e],
     mkPage (uniqueCharacters p) (Some cur)
            (<[cur := toDataURL cv]> (letterings p)),
     w').
Proof.
  intros Hcur Hne Hdraw Hsave.
  rewrite (saveAndNext_proceeds _ _ _ _ cur) by done. simpl. by rewrite Hsave.
Qed.

Lemma saveAndNext_save_fails_witness :
  saveAndNext (Sample.env "g1" Sample.no_fault) (Demo.canvas "data:,")
    Demo.page Sample.offline_a
  = ([save_alert (Demo.canvas "data:,") InvalidImageData],
     mkPage (uniqueCharacters Demo.page) (Some "b")
            (<["b" := toDataURL (Demo.canvas "data:,")]> (letterings Demo.page)),
     Sample.offline_a).
Proof.
  apply saveAndNext_save_fails.
  - reflexivity.
  - discriminate.
  - left. reflexivity.
  - reflexivity.
Defined.

(** X25 (after a successful save the page moves on).  When
    [saveLettering] succeeds with a non-empty image, the page either selects
    the next character in turn, which is in the list, has no lettering and
    is not the one just saved, or, when every other character has a
    lettering, keeps the selection and announces that all are completed.
    The image is recorded in both cases. *)
Theorem saveAndNext_moves_on env cv p w cur id w' :
  currentCharacter p = Some cur →
  cur ≠ "" →
  "" ∉ uniqueCharacters p →
  hasDrawing (pixels cv) = true ∨ confirmEmpty cv = true →
  toDataURL cv ≠ "" →
  saveLettering env (JS.Str cur) (JS.Str (toDataURL cv)) w = (Ok id, w') →
  ∃ alerts p',
    saveAndNext env cv p w = (alerts, p', w')
    ∧ letterings p' = <[cur := toDataURL cv]> (letterings p)
    ∧ uniqueCharacters p' = uniqueCharacters p
    ∧ ((alerts = []
        ∧ ∃ next i, currentCharacter p' = Some next
                    ∧ next ≠ cur
                    ∧ uniqueCharacters p !! i = Some next
                    ∧ unfinished (letterings p') next = true
                    ∧ next_in_turn (uniqueCharacters p) (letterings p')
                        (indexOf (uniqueCharacters p) (Some cur)) i)
       ∨ (alerts = [AllCompleted]
          ∧ currentCharacter p' = Some cur
          ∧ ∀ i c, uniqueCharacters p !! i = Some c →
                   Z.of_nat i ≠ indexOf (uniqueCharacters p) (Some cur) →
                   unfinished (letterings p') c = false)).
Proof.
  intros Hcur Hne Hempty Hdraw Hurl Hsave.
  rewrite (saveAndNext_proceeds _ _ _ _ cur) by done. simpl. rewrite Hsave.
  destruct (findNextUnfinishedCharacter _ _ _) as [next|] eqn:Hnext.
  - destruct (next_unfinished_first _ _ _ _ Hnext) as (i & Hi & Hu & Hturn).
    assert (JS.nonempty next = true) as ->.
    { apply nonempty_true. intros ->. apply Hempty.
      by eapply list_elem_of_lookup_2. }
    eexists _, _. split; [done|]. split; [done|]. split; [done|].
    left. split; [done|]. exists next, i. simpl.
    split; [done|]. split; [|done].
    intros ->. unfold unfinished in Hu. rewrite lookup_insert_eq in Hu.
    apply nonempty_true in Hurl. by rewrite Hurl in Hu.
  - eexists _, _. split; [done|]. split; [done|]. split; [done|].
    right. split; [done|]. split; [done|]. simpl.
    exact (proj1 (next_unfinished_nothing _ _ _) Hnext).
Qed.

Lemma saveAndNext_moves_on_witness :
  ∃ alerts p',
    saveAndNext (Sample.env "g1" Sample.no_fault) (Demo.canvas Sample.imgA)
      Demo.page Sample.offline_a
    = (alerts, p',
       (saveLettering (Sample.env "g1" Sample.no_fault) (JS.Str "b")
          (JS.Str Sample.imgA) Sample.offline_a).2)
    ∧ letterings p' = <["b" := Sample.imgA]> (letterings Demo.page)
    ∧ uniqueCharacters p' = uniqueCharacters Demo.page
    ∧ ((alerts = []
        ∧ ∃ next i, currentCharacter p' = Some next
                    ∧ next ≠ "b"
                    ∧ uniqueCharacters Demo.page !! i = Some next
                    ∧ unfinished (letterings p') next = true
                    ∧ next_in_turn (uniqueCharacters Demo.page) (letterings p')
                        (indexOf (uniqueCharacters Demo.page) (Some "b")) i)
       ∨ (alerts = [AllCompleted]
          ∧ currentCharacter p' = Some "b"
          ∧ ∀ i c, uniqueCharacters Demo.page !! i = Some c →
                   Z.of_nat i ≠ indexOf (uniqueCharacters Demo.page) (Some "b") →
                   unfinished (letterings p') c = false)).
Proof.
  apply (saveAndNext_moves_on (Sample.env "g1" Sample.no_fault)
           (Demo.canvas Sample.imgA) Demo.page Sample.offline_a "b"
           "local_glyph_u_b").
  - reflexivity.
  - discriminate.
  - intros H. simpl in H.
    repeat (apply elem_of_cons in H as [H|H]; [discriminate H|]).
    by apply elem_of_nil in H.
  - left. reflexivity.
  - discriminate.
  - vm_compute. reflexivity.
Defined.

(** X26 (a local save survives a reload).  Without Firebase, once
    [saveAndNext] has gone ahead with a canvas image that carries the image
    marker, a later [init] of the page on the same device finds that image
    as the lettering of the character it was saved for; the page starts with
    the characters of the sentence and nothing selected. *)
Theorem save_survives_reload env env' cv p w U cur :
  identity (localStorage w) U →
  db w = None →
  LocalStorage.writable (localStorage w) = true →
  currentCharacter p = Some cur →
  cur ≠ "" →
  hasDrawing (pixels cv) = true ∨ confirmEmpty cv = true →
  JS.startsWith (toDataURL cv) "data:image/" = true →
  ∃ w' page,
    (saveAndNext env cv p w).2 = w'
    ∧ init env' w' = (Ok page, w')
    ∧ letterings page !! cur = Some (toDataURL cv)
    ∧ currentCharacter page = None
    ∧ uniqueCharacters page = extractUniqueCharacters SENTENCE.
Proof.
  intros HU Hdb Hw Hcur Hne Hdraw Hurl.
  rewrite (saveAndNext_proceeds _ _ _ _ cur) by done. simpl.
  rewrite (saveLettering_local_established env w U cur (toDataURL cv)) by done.
  pose proof (identity_insert_glyph _ U cur (toDataURL cv) HU) as HU'.
  set (st' := LocalStorage.mk _ true) in *.
  exists (mkWorld st' None).
  exists (mkPage (extractUniqueCharacters SENTENCE) None
            (userLetterings env' U (mkWorld st' None))).
  split.
  { destruct (findNextUnfinishedCharacter _ _ _) as [next|]; [|done].
    by destruct (JS.nonempty next). }
  split.
  { unfold init, loadLetteringsFromFirebase. simpl.
    rewrite (getUserId_established _ _ _ HU').
    by rewrite (loadUserLetterings_established _ (mkWorld st' None) U). }
  split; [|done]. simpl. unfold userLetterings. simpl.
  apply scan_plain_lookup. split.
  - unfold st'. simpl. rewrite <- local_key_prefix. apply lookup_insert_eq.
  - intros Heq. rewrite Heq in Hurl. discriminate Hurl.
Qed.

Lemma save_survives_reload_witness :
  ∃ w' page,
    (saveAndNext (Sample.env "g1" Sample.no_fault) (Demo.canvas Sample.imgA)
       Demo.page Sample.offline_a).2 = w'
    ∧ init (Sample.env "g2" Sample.no_fault) w' = (Ok page, w')
    ∧ letterings page !! "b" = Some (toDataURL (Demo.canvas Sample.imgA))
    ∧ currentCharacter page = None
    ∧ uniqueCharacters page = extractUniqueCharacters SENTENCE.
Proof.
  apply (save_survives_reload _ _ _ _ _ "u").
  - split; [reflexivity | discriminate].
  - reflexivity.
  - reflexivity.
  - reflexivity.
  - discriminate.
  - left. reflexivity.
  - reflexivity.
Defined.

(* ===================================================================== *)
(** * Properties of [interaction-firebase.js] *)
(* ===================================================================== *)

(** X27 (only images that load are handed on).  For an established identity
    [loadCustomLetteringsFromFirebase] returns, for a character, the source
    of an image exactly when the resolution has an entry for the character
    whose image data is non-empty and loads; entries whose image fails to
    load are dropped one by one, and the stores are not changed. *)
Theorem custom_letterings_lookup env decodes requiredChars w U ch src :
  identity (localStorage w) U →
  ∃ data m,
    loadAllLetteringsForInteraction env requiredChars w = (Ok data, w)
    ∧ loadCustomLetteringsFromFirebase env decodes requiredChars w = (m, w)
    ∧ (m !! ch = Some src
       ↔ ∃ e, data !! ch = Some e
              ∧ Lettering.imageData e = src
              ∧ src ≠ ""
              ∧ decodes src = true).
Proof.
  intros HU.
  assert (Hdata : ∃ data,
    loadAllLetteringsForInteraction env requiredChars w = (Ok data, w)).
  { destruct requiredChars; try (by exists ∅).
    eexists. by apply loadAll_established. }
  destruct Hdata as [data Hdata]. exists data, (omap (load_image decodes) data).
  split; [done|]. split.
  { unfold loadCustomLetteringsFromFirebase.
    rewrite (getUserId_established _ _ _ HU).
    destruct w as [st d]. simpl in *. by rewrite Hdata. }
  rewrite lookup_omap, bind_Some. unfold load_image. split.
  - intros (e & He & Hload). exists e. split; [done|].
    destruct (JS.nonempty (Lettering.imageData e)) eqn:Hne; [|done]. simpl in Hload.
    destruct (decodes (Lettering.imageData e)) eqn:Hdec; [|done].
    injection Hload as <-. split; [done|]. split; [|done].
    by apply nonempty_true.
  - intros (e & He & <- & Hne & Hdec). exists e. split; [done|].
    apply nonempty_true in Hne. by rewrite Hne, Hdec.
Qed.

Lemma custom_letterings_lookup_witness :
  ∃ data m,
    loadAllLetteringsForInteraction (Sample.env "g3" Sample.no_fault)
      (JS.Arr [JS.Str "a"]) Demo.visitor = (Ok data, Demo.visitor)
    ∧ loadCustomLetteringsFromFirebase (Sample.env "g3" Sample.no_fault)
        (String.eqb Sample.imgB) (JS.Arr [JS.Str "a"]) Demo.visitor
      = (m, Demo.visitor)
    ∧ (m !! "a" = Some Sample.imgB
       ↔ ∃ e, data !! "a" = Some e
              ∧ Lettering.imageData e = Sample.imgB
              ∧ Sample.imgB ≠ ""
              ∧ String.eqb Sample.imgB Sample.imgB = true).
Proof.
  apply (custom_letterings_lookup _ _ _ _ "u3").
  split; [reflexivity | discriminate].
Defined.

(** X28 (a failing storage gives no letterings).  On a device without stored
    identity whose local storage refuses writes, where the resolution itself
    throws, [loadCustomLetteringsFromFirebase] catches the exception and
    returns the empty mapping; nothing is changed. *)
Theorem custom_letterings_swallow env decodes requiredChars w :
  no_user_id (LocalStorage.getItem USER_ID_KEY (localStorage w)) = true →
  LocalStorage.writable (localStorage w) = false →
  loadCustomLetteringsFromFirebase env decodes requiredChars w = (∅, w).
Proof.
  intros Hno Hw. unfold loadCustomLetteringsFromFirebase, getUserId,
    LocalStorage.setItem. rewrite Hno, Hw. by destruct w.
Qed.

Lemma custom_letterings_swallow_witness :
  loadCustomLetteringsFromFirebase (Sample.env "g1" Sample.no_fault)
    (λ _, true) (JS.Arr [JS.Str "a"]) (mkWorld (LocalStorage.mk ∅ false) None)
  = (∅, mkWorld (LocalStorage.mk ∅ false) None).
Proof. apply custom_letterings_swallow; reflexivity. Defined.

(* ===================================================================== *)
(** * Own priority after a remote save *)
(* ===================================================================== *)

Section own_priority_remote.

(** On a configured store a successful save does not make the glyph the
    caller's own: for an identity whose document has no [charMap] pointer for
    [c], every later resolution by that identity gives [c], if anything, an
    entry with source [global]. *)
Lemma remote_save_is_not_own env env' w U fs c img
    (requiredChars : list JS.value) m w2 e :
  identity (localStorage w) U →
  db w = Some fs →
  c ≠ "" →
  JS.startsWith img "data:image/" = true →
  addDoc_error env = None →
  setDoc_error env = None →
  charMap fs U !! c = None →
  loadAllLetteringsForInteraction env' (JS.Arr requiredChars)
    (saveLettering env (JS.Str c) (JS.Str img) w).2 = (Ok m, w2) →
  m !! c = Some e →
  Lettering.source e = global.
Proof.
  intros HU Hdb Hc Himg Hadd Hset Hptr.
  set (fs' := Firestore.setDoc_merge U
                {[ "charMap." +:+ c := Firestore.FString (autoId env) ]}
                (Firestore.addDoc (autoId env)
                   (Glyph.mk c img (serverTimestamp env) U) fs)).
  assert ((saveLettering env (JS.Str c) (JS.Str img) w).2
          = mkWorld (localStorage w) (Some fs')) as ->.
  { rewrite (saveLettering_remote _ _ U fs) by done. by rewrite Hadd, Hset. }
  rewrite (loadAll_established _ _ _ U) by done. intros [= <- <-] He.
  apply resolved_entries in He as [Hown|(_ & _ & _ & _ & _ & Hsrc)]; [|done].
  rewrite own_without_pointer in Hown; [done|].
  unfold fs'. by rewrite setDoc_pointer_charMap.
Qed.

End own_priority_remote.

(** C1 (own priority), evaluated on the remote store.  Identity u3 saves its
    glyph imgC for the character a in a pool that already holds two artifacts
    of other identities for a; the save succeeds.  The own-artifact map of u3
    is empty afterwards, and the resolution of the required character a by u3
    returns the image imgA of identity u1 with source [global], not the
    image u3 saved with source [user]. *)
Theorem own_priority_lost_after_remote_save :
  (saveLettering (Sample.env "g3" Sample.no_fault) (JS.Str "a")
     (JS.Str Demo.imgC) Demo.visitor).1 = Ok "g3"
  ∧ (∃ fs, db Demo.visitor_saved = Some fs
           ∧ Firestore.globalGlyphs fs !! "g3"
             = Some (Glyph.mk "a" Demo.imgC 1733789240000%N "u3"))
  ∧ loadLetteringsForInteraction (Sample.env "g4" Sample.no_fault)
      Demo.visitor_saved = (Ok (∅, ∅), Demo.visitor_saved)
  ∧ ∃ m, loadAllLetteringsForInteraction (Sample.env "g4" Sample.no_fault)
           (JS.Arr [JS.Str "a"]) Demo.visitor_saved
         = (Ok m, Demo.visitor_saved)
         ∧ m !! "a" = Some (Lettering.mk Sample.imgA global)
         ∧ m !! "a" ≠ Some (Lettering.mk Demo.imgC user).
Proof.
  split; [vm_compute; reflexivity|].
  split.
  { eexists. split; vm_compute; reflexivity. }
  split; [vm_compute; reflexivity|].
  eexists. split; [vm_compute; reflexivity|].
  split; [vm_compute; reflexivity|].
  vm_compute. discriminate.
Qed.
